(** * PVR client registry and dispatch (xbmc/pvr/addons/PVRClients.cpp)

    A shallow embedding of [CPVRClients]: client id derivation, the client
    map, stop/recreate/destroy of a client, the add-on reconciliation pass
    [UpdateAddons], the fan-out dispatchers [ForCreatedClients] and
    [ForClients], and the connection state notifier.

    Conventions.
    - [int] values are [Z]; conversions to [int] are written out with
      [static_cast_int] (two's complement wrap-around on 32 bits).
    - [ADDON::AddonInstanceId] is an unsigned integer, modelled as [N].
    - [CPVRClientMap], a [std::map<int, std::shared_ptr<CPVRClient>>], is a
      [gmap Z Ptr]; loops over it visit [entries], its bindings by
      ascending key.
    - [std::shared_ptr<CPVRClient>] is an address [Ptr] into a heap of client
      objects, so that all holders of a pointer see the same object; a
      pointer that may be null is an [option Ptr].
    - A method called on a client object rewrites that object in the heap.
      Every other call that leaves this file (logging, the PVR manager, the
      progress dialog, the application messenger, the job manager, the
      operation closure handed to a fan-out) is recorded, in program order,
      in the [trace] of the state. *)

From stdpp Require Import base numbers option list sorting functions gmap strings.
From Stdlib Require Import ZArith NArith String Lia Bool DecimalString.

Local Open Scope Z_scope.

(** ** Machine integers *)

(** [static_cast<int>(z)]: the value of [z] modulo 2^32 in [-2^31, 2^31). *)
Definition static_cast_int (z : Z) : Z := (z + 2 ^ 31) mod 2 ^ 32 - 2 ^ 31.

Definition INT_MIN : Z := - 2 ^ 31.
Definition INT_MAX : Z := 2 ^ 31 - 1.

(** Unary minus on [int].  At [INT_MIN] the C++ expression overflows; the
    wrap-around result (again [INT_MIN]) is what two's complement hardware
    delivers. *)
Definition int_neg (i : Z) : Z := static_cast_int (- i).

(** [std::to_string] on an unsigned integer: its decimal digits. *)
Definition to_string (n : N) : string := NilZero.string_of_uint (N.to_uint n).

(** ** Declarations the file takes from its headers

    [std::hash<std::string>], the instance id constants of addons/IAddon.h,
    [PVR_INVALID_CLIENT_ID] of PVRClient.h and the string table
    [g_localizeStrings] are used, not defined, by PVRClients.cpp. *)
Class Platform : Type := {
  hasher : string -> Z;
  ADDON_SINGLETON_INSTANCE_ID : N;
  ADDON_FIRST_INSTANCE_ID : N;
  PVR_INVALID_CLIENT_ID : Z;
  g_localizeStrings_Get : Z -> string
}.

(** ** Enumerations *)

Inductive PVR_ERROR : Type :=
| PVR_ERROR_NO_ERROR
| PVR_ERROR_UNKNOWN
| PVR_ERROR_NOT_IMPLEMENTED
| PVR_ERROR_SERVER_ERROR
| PVR_ERROR_SERVER_TIMEOUT
| PVR_ERROR_REJECTED
| PVR_ERROR_ALREADY_PRESENT
| PVR_ERROR_INVALID_PARAMETERS
| PVR_ERROR_RECORDING_RUNNING
| PVR_ERROR_FAILED.

#[global] Instance PVR_ERROR_eq_dec : EqDecision PVR_ERROR.
Proof. solve_decision. Defined.

Inductive PVR_CONNECTION_STATE : Type :=
| PVR_CONNECTION_STATE_UNKNOWN
| PVR_CONNECTION_STATE_SERVER_UNREACHABLE
| PVR_CONNECTION_STATE_SERVER_MISMATCH
| PVR_CONNECTION_STATE_VERSION_MISMATCH
| PVR_CONNECTION_STATE_ACCESS_DENIED
| PVR_CONNECTION_STATE_CONNECTED
| PVR_CONNECTION_STATE_DISCONNECTED
| PVR_CONNECTION_STATE_CONNECTING
| PVR_CONNECTION_STATE_out_of_range (value : Z).

#[global] Instance PVR_CONNECTION_STATE_eq_dec : EqDecision PVR_CONNECTION_STATE.
Proof. solve_decision. Defined.

Inductive ADDON_STATUS : Type :=
| ADDON_STATUS_OK
| ADDON_STATUS_LOST_CONNECTION
| ADDON_STATUS_NEED_RESTART
| ADDON_STATUS_NEED_SETTINGS
| ADDON_STATUS_UNKNOWN
| ADDON_STATUS_PERMANENT_FAILURE
| ADDON_STATUS_NOT_IMPLEMENTED.

#[global] Instance ADDON_STATUS_eq_dec : EqDecision ADDON_STATUS.
Proof. solve_decision. Defined.

(** ** Collaborators *)

(** [ADDON::AddonInfoPtr]: what this file reads of an add-on's description. *)
Record AddonInfo : Type := {
  AddonInfo_ID : string;
  AddonInfo_Name : string;
  GetKnownInstanceIds : list N
}.

(** The methods of [CPVRClient] this file calls.  The class lives in
    PVRClient.cpp; here it is an interface over the object's state.
    [GetSettingBool_INSTANCE_ENABLED id c] is
    [c.Addon()->GetSettingBool(ADDON_SETTING_INSTANCE_ENABLED_VALUE, value, id)]:
    [Some v] when the call stores [v] in [value], [None] when it leaves
    [value] as it was. *)
Class CPVRClientClass (CPVRClient : Type) : Type := {
  ID : CPVRClient -> string;
  InstanceId : CPVRClient -> N;
  GetID : CPVRClient -> Z;
  Name : CPVRClient -> string;
  Icon : CPVRClient -> string;
  ReadyToUse : CPVRClient -> bool;
  IgnoreClient : CPVRClient -> bool;
  GetPreviousConnectionState : CPVRClient -> PVR_CONNECTION_STATE;
  GetSettingBool_INSTANCE_ENABLED : N -> CPVRClient -> option bool;
  ReloadSettings : N -> CPVRClient -> CPVRClient;
  Create : Z -> CPVRClient -> ADDON_STATUS * CPVRClient;
  ReCreate : CPVRClient -> CPVRClient;
  Destroy : CPVRClient -> CPVRClient;
  make_shared_CPVRClient : AddonInfo -> N -> CPVRClient
}.

(** The methods of [CAddonMgr] this file calls, restricted to add-ons of type
    [ADDON_PVRDLL]; the flag of [GetAddonInfos] is its [onlyEnabled]
    argument. *)
Class CAddonMgrClass (CAddonMgr : Type) : Type := {
  GetAddonInfos : bool -> CAddonMgr -> list AddonInfo;
  IsAddonDisabled : string -> CAddonMgr -> bool;
  DisableAddon : string -> CAddonMgr -> CAddonMgr
}.

(** ** Outbound calls *)

Inductive LogLevel : Type := LOGWARNING | LOGERROR.

Inductive LogArg : Type :=
| arg_string (s : string)
| arg_status (status : ADDON_STATUS).

Definition Ptr : Type := nat.

(** [Invoke_function id client result]: the operation closure of a fan-out
    was called on [client], which the loop holds under the client id [id],
    and returned [result]. *)
Inductive Event : Type :=
| CLog_Log (level : LogLevel) (format : string) (args : list LogArg)
| PVRManager_Stop
| PVRManager_Start
| CPVRGUIProgressHandler_new (title : string)
| UpdateProgress (text : string) (current total : N)
| CPVRGUIProgressHandler_reset
| SendMsg_TMSG_MEDIA_STOP
| AddJob_CPVREventLogJob (bNotify bError : bool) (label msg icon : string)
| Invoke_function (iClientId : Z) (client : Ptr) (result : PVR_ERROR).

(** ** Client id derivation (lines 36-48) *)

Section ClientId.
Context {P : Platform}.

(** The argument of [hasher] at lines 43-44. *)
Definition hashed_string (addonID : string) (instanceID : N) : string :=
  ((if (ADDON_FIRST_INSTANCE_ID <? instanceID)%N
    then to_string instanceID ++ "@"
    else EmptyString) ++ addonID)%string.

(** Lines 42-47 applied to the value [h] the hasher returned. *)
Definition ClientIdFromHash (h : Z) : Z :=
  let iClientId := static_cast_int h in
  if iClientId <? 0 then int_neg iClientId else iClientId.

Definition ClientIdFromAddonIdAndInstanceId (addonID : string) (instanceID : N) : Z :=
  ClientIdFromHash (hasher (hashed_string addonID instanceID)).

End ClientId.

(** ** The client map *)

Definition key_le {V : Type} (a b : Z * V) : Prop := a.1 ≤ b.1.

#[global] Instance key_le_dec {V : Type} (a b : Z * V) : Decision (key_le a b).
Proof. unfold key_le. apply _. Defined.

(** The bindings of a [std::map<int, V>] in iteration order. *)
Definition entries {V : Type} (m : gmap Z V) : list (Z * V) :=
  merge_sort key_le (map_to_list m).

(** [std::map::insert]: an existing binding of the key is kept. *)
Definition map_insert {V : Type} (k : Z) (v : V) (m : gmap Z V) : gmap Z V :=
  match m !! k with
  | Some _ => m
  | None => <[k := v]> m
  end.

(** ** State *)

Section Clients.
Context {P : Platform}.
Context {CPVRClient : Type} {client_class : CPVRClientClass CPVRClient}.
Context {CAddonMgr : Type} {addon_mgr_class : CAddonMgrClass CAddonMgr}.

Record World : Type := {
  m_clientMap : gmap Z Ptr;
  heap : Ptr -> CPVRClient;
  heap_top : Ptr;
  addonMgr : CAddonMgr;
  IsPlaying : bool;
  trace : list Event
}.

Definition set_clientMap (m : gmap Z Ptr) (w : World) : World :=
  {| m_clientMap := m; heap := heap w; heap_top := heap_top w;
     addonMgr := addonMgr w; IsPlaying := IsPlaying w; trace := trace w |}.

Definition set_heap (h : Ptr -> CPVRClient) (w : World) : World :=
  {| m_clientMap := m_clientMap w; heap := h; heap_top := heap_top w;
     addonMgr := addonMgr w; IsPlaying := IsPlaying w; trace := trace w |}.

Definition set_heap_top (p : Ptr) (w : World) : World :=
  {| m_clientMap := m_clientMap w; heap := heap w; heap_top := p;
     addonMgr := addonMgr w; IsPlaying := IsPlaying w; trace := trace w |}.

Definition set_addonMgr (a : CAddonMgr) (w : World) : World :=
  {| m_clientMap := m_clientMap w; heap := heap w; heap_top := heap_top w;
     addonMgr := a; IsPlaying := IsPlaying w; trace := trace w |}.

Definition emit (e : Event) (w : World) : World :=
  {| m_clientMap := m_clientMap w; heap := heap w; heap_top := heap_top w;
     addonMgr := addonMgr w; IsPlaying := IsPlaying w; trace := trace w ++ [e] |}.

(** A method call [p->f()] that changes the object. *)
Definition call_on (p : Ptr) (f : CPVRClient -> CPVRClient) (w : World) : World :=
  set_heap (<[p := f (heap w p)]> (heap w)) w.

(** ** Client access (lines 338-408) *)

Definition GetClient (w : World) (iClientId : Z) : option Ptr :=
  if bool_decide (iClientId ≤ PVR_INVALID_CLIENT_ID) then None
  else m_clientMap w !! iClientId.

(** The entry [std::find_if] stops at in [GetClientId] and in
    [IsCreatedClient(addonId, instanceId)]. *)
Definition find_addon_instance (w : World) (addonId : string) (instanceId : N)
  : option (Z * Ptr) :=
  find (fun entry : Z * Ptr =>
          bool_decide (ID (heap w entry.2) = addonId) &&
          bool_decide (InstanceId (heap w entry.2) = instanceId))
       (entries (m_clientMap w)).

Definition GetClientId (w : World) (addonId : string) (instanceId : N) : Z :=
  match find_addon_instance w addonId instanceId with
  | Some it => it.1
  | None => -1
  end.

Definition CreatedClientAmount (w : World) : Z :=
  static_cast_int
    (Z.of_nat (List.length (filter (fun client : Z * Ptr => ReadyToUse (heap w client.2) = true)
                              (entries (m_clientMap w))))).

Definition HasCreatedClients (w : World) : bool :=
  existsb (fun client : Z * Ptr => ReadyToUse (heap w client.2)) (entries (m_clientMap w)).

Definition IsKnownClient (w : World) (addonId : string) (instanceId : N) : bool :=
  bool_decide (0 < GetClientId w addonId instanceId).

Definition IsCreatedClient (w : World) (addonId : string) (instanceId : N) : bool :=
  match find_addon_instance w addonId instanceId with
  | Some it => ReadyToUse (heap w it.2)
  | None => false
  end.

(** ** StopClient (lines 280-310) *)

Definition StopClient (addonId : string) (instanceId : N) (bRestart : bool) (w : World)
  : bool * World :=
  let w := if IsPlaying w then emit SendMsg_TMSG_MEDIA_STOP w else w in
  let iId := GetClientId w addonId instanceId in
  match GetClient w iId with
  | Some mappedClient =>
      if bRestart
      then (true, call_on mappedClient ReCreate w)
      else (true, call_on mappedClient Destroy
                    (set_clientMap (delete iId (m_clientMap w)) w))
  | None => (false, w)
  end.

(** ** Fan-out (lines 473-502 and 883-988) *)

(** One step of the inner loop of [GetCallableClients] (lines 486-497). *)
Definition GetCallableClients_instance (w : World) (addon : AddonInfo)
    (acc : gmap Z Ptr * list Z) (instanceId : N) : gmap Z Ptr * list Z :=
  let iClientId := ClientIdFromAddonIdAndInstanceId (AddonInfo_ID addon) instanceId in
  match GetClient w iClientId with
  | Some client =>
      if ReadyToUse (heap w client) && negb (IgnoreClient (heap w client))
      then (map_insert iClientId client acc.1, acc.2)
      else (acc.1, acc.2 ++ [iClientId])
  | None => (acc.1, acc.2 ++ [iClientId])
  end.

(** [GetCallableClients] called, as at line 915, with an empty [clientsReady]:
    the pair ([clientsReady], [clientsNotReady]) and the return value. *)
Definition GetCallableClients (w : World) : (gmap Z Ptr * list Z) * PVR_ERROR :=
  let r :=
    foldl (fun acc addon =>
             foldl (GetCallableClients_instance w addon) acc (GetKnownInstanceIds addon))
          (∅, []) (GetAddonInfos true (addonMgr w)) in
  (r, if bool_decide (r.2 = []) then PVR_ERROR_NO_ERROR else PVR_ERROR_SERVER_ERROR).

(** The log line [LogClientWarning] writes (lines 886-897). *)
Definition client_warning (strFunctionName : string) (client : CPVRClient) : Event :=
  if IgnoreClient client
  then CLog_Log LOGWARNING "{}: Not calling add-on '{}'. Add-on not (yet) connected."
         [arg_string strFunctionName; arg_string (ID client)]
  else if negb (ReadyToUse client)
  then CLog_Log LOGWARNING "{}: Not calling add-on '{}'. Add-on not ready to use."
         [arg_string strFunctionName; arg_string (ID client)]
  else CLog_Log LOGERROR "{}: Not calling add-on '{}' for unexpected reason."
         [arg_string strFunctionName; arg_string (ID client)].

Definition LogClientWarning (strFunctionName : string) (client : Ptr) (w : World) : World :=
  emit (client_warning strFunctionName (heap w client)) w.

(** [PVRClientFunction]: the operation closure.  [S] is the state the
    closure captured or reaches through the client; a call returns the
    error code and the state it leaves.  The closures of this file query
    the client (GetTimers, GetChannels, ...): they replace neither the
    client map nor the id and the flags of a client. *)
Definition PVRClientFunction (S : Type) : Type := Ptr -> S -> PVR_ERROR * S.

(** The variables of a fan-out loop, with the closure's state and the
    world (whose trace the loop extends). *)
Record FanOut (S : Type) : Type := {
  lastError : PVR_ERROR;
  failedClients : list Z;
  closure : S;
  world : World
}.
Arguments lastError {S}.
Arguments failedClients {S}.
Arguments closure {S}.
Arguments world {S}.

(** An error code that counts as a failure (the test at lines 933 and 977). *)
Definition is_failure (currentError : PVR_ERROR) : bool :=
  bool_decide (currentError ≠ PVR_ERROR_NO_ERROR) &&
  bool_decide (currentError ≠ PVR_ERROR_NOT_IMPLEMENTED).

(** The body shared by the two loops (lines 931-937 and 975-981): call
    [function] on [client] and book the outcome under [iClientId]. *)
Definition invoke {S : Type} (function : PVRClientFunction S) (iClientId : Z) (client : Ptr)
    (st : FanOut S) : FanOut S :=
  let '(currentError, s) := function client (closure st) in
  let w := emit (Invoke_function iClientId client currentError) (world st) in
  if is_failure currentError
  then {| lastError := currentError; failedClients := failedClients st ++ [iClientId];
          closure := s; world := w |}
  else {| lastError := lastError st; failedClients := failedClients st;
          closure := s; world := w |}.

(** The body of the loop at lines 919-926. *)
Definition warn_not_callable (strFunctionName : string) (w : World) (id : Z) : World :=
  match GetClient w id with
  | Some client => LogClientWarning strFunctionName client w
  | None => w
  end.

Definition ForCreatedClients {S : Type} (strFunctionName : string)
    (function : PVRClientFunction S) (s : S) (w : World) : FanOut S :=
  let '(clients, failed, _) := GetCallableClients w in
  let w1 := foldl (warn_not_callable strFunctionName) w failed in
  foldl (fun st clientEntry => invoke function clientEntry.1 clientEntry.2 st)
        {| lastError := PVR_ERROR_NO_ERROR; failedClients := failed; closure := s; world := w1 |}
        (entries clients).

(** The test of lines 958-960: a ready to use client that shall be called. *)
Definition shall_be_called (w : World) (clients : list Ptr) (entry : Z * Ptr) : bool :=
  ReadyToUse (heap w entry.2) && negb (IgnoreClient (heap w entry.2)) &&
  existsb (fun client => bool_decide (GetID (heap w client) = entry.1)) clients.

(** The scan of the client map at lines 956-967. *)
Definition ForClients_scan (w : World) (clients : list Ptr) : list Z :=
  foldl (fun failed entry =>
           if shall_be_called w clients entry then failed else failed ++ [entry.1])
        [] (entries (m_clientMap w)).

(** The body of the loop at lines 970-987. *)
Definition ForClients_step {S : Type} (strFunctionName : string)
    (function : PVRClientFunction S) (st : FanOut S) (client : Ptr) : FanOut S :=
  let id := GetID (heap (world st) client) in
  if forallb (fun failedClientId => negb (bool_decide (failedClientId = id)))
             (failedClients st)
  then invoke function id client st
  else {| lastError := lastError st; failedClients := failedClients st;
          closure := closure st;
          world := LogClientWarning strFunctionName client (world st) |}.

Definition ForClients {S : Type} (strFunctionName : string) (clients : list Ptr)
    (function : PVRClientFunction S) (s : S) (w : World) : FanOut S :=
  match clients with
  | [] => ForCreatedClients strFunctionName function s w
  | _ =>
    foldl (ForClients_step strFunctionName function)
          {| lastError := PVR_ERROR_NO_ERROR; failedClients := ForClients_scan w clients;
             closure := s; world := w |}
          clients
  end.

(** ** Connection state notifier (lines 818-881) *)

Definition ConnectionStateChange (client : option Ptr) (strConnectionString : string)
    (newState : PVR_CONNECTION_STATE) (strMessage : string) (w : World) : World :=
  match client with
  | None => w
  | Some client =>
    let previous := GetPreviousConnectionState (heap w client) in
    let first_after_start :=
      bool_decide (previous = PVR_CONNECTION_STATE_UNKNOWN) ||
      bool_decide (previous = PVR_CONNECTION_STATE_CONNECTING) in
    (* (iMsg, bError, bNotify), or nothing in the default case *)
    let settings : option (Z * bool * bool) :=
      match newState with
      | PVR_CONNECTION_STATE_SERVER_UNREACHABLE =>
          Some (35505, true, if first_after_start then false else true)
      | PVR_CONNECTION_STATE_SERVER_MISMATCH => Some (35506, true, true)
      | PVR_CONNECTION_STATE_VERSION_MISMATCH => Some (35507, true, true)
      | PVR_CONNECTION_STATE_ACCESS_DENIED => Some (35508, true, true)
      | PVR_CONNECTION_STATE_CONNECTED =>
          Some (36034, false, if first_after_start then false else true)
      | PVR_CONNECTION_STATE_DISCONNECTED => Some (36030, true, true)
      | PVR_CONNECTION_STATE_CONNECTING => Some (35509, false, false)
      | _ => None
      end in
    match settings with
    | None => emit (CLog_Log LOGERROR "Unknown connection state" []) w
    | Some (iMsg, bError, bNotify) =>
      let strMsg :=
        if negb (bool_decide (strMessage = EmptyString)) then strMessage
        else g_localizeStrings_Get iMsg in
      emit (AddJob_CPVREventLogJob bNotify bError (Name (heap w client)) strMsg
              (Icon (heap w client))) w
    end
  end.

(** ** Reconciliation (lines 91-267) *)

(** The three action lists.  An element of [addonsToCreate] holds the
    pointer line 157 or 161 produced, null when [GetClient] found nothing. *)
Record Actions : Type := {
  addonsToCreate : list (option Ptr * Z);
  addonsToReCreate : list (AddonInfo * N);
  addonsToDestroy : list (AddonInfo * N)
}.

Definition no_actions : Actions :=
  {| addonsToCreate := []; addonsToReCreate := []; addonsToDestroy := [] |}.

Definition push_create (e : option Ptr * Z) (a : Actions) : Actions :=
  {| addonsToCreate := addonsToCreate a ++ [e];
     addonsToReCreate := addonsToReCreate a;
     addonsToDestroy := addonsToDestroy a |}.

Definition push_recreate (e : AddonInfo * N) (a : Actions) : Actions :=
  {| addonsToCreate := addonsToCreate a;
     addonsToReCreate := addonsToReCreate a ++ [e];
     addonsToDestroy := addonsToDestroy a |}.

Definition push_destroy (e : AddonInfo * N) (a : Actions) : Actions :=
  {| addonsToCreate := addonsToCreate a;
     addonsToReCreate := addonsToReCreate a;
     addonsToDestroy := addonsToDestroy a ++ [e] |}.

(** The test of line 205. *)
Definition any_action (a : Actions) : bool :=
  negb (bool_decide (addonsToCreate a = [])) ||
  negb (bool_decide (addonsToReCreate a = [])) ||
  negb (bool_decide (addonsToDestroy a = [])).

(** [std::make_shared<CPVRClient>(addon, instanceId)]: a new object at the
    top of the heap. *)
Definition make_shared (addon : AddonInfo) (instanceId : N) (w : World) : Ptr * World :=
  (heap_top w,
   set_heap_top (S (heap_top w))
     (set_heap (<[heap_top w := make_shared_CPVRClient addon instanceId]> (heap w)) w)).

(** Lines 127-142: the instance ids of [addon] with their status. *)
Definition instanceIdsWithStatus (changedAddonId : string) (changedInstanceId : N)
    (addon : AddonInfo) (bEnabled : bool) : list (N * bool) :=
  let instanceIds := GetKnownInstanceIds addon in
  map (fun id => (id, bEnabled)) instanceIds ++
  (if bool_decide (changedInstanceId ≠ ADDON_SINGLETON_INSTANCE_ID) &&
      bool_decide (changedAddonId = AddonInfo_ID addon) &&
      negb (existsb (fun id => bool_decide (id = changedInstanceId)) instanceIds)
   then [(changedInstanceId, false)]
   else []).

(** Lines 146-200: the body of the loop over the instances of [addon].
    [None] is the dereference of a null [client]. *)
Definition classify_instance (addon : AddonInfo) (acc : World * Actions)
    (instanceInfo : N * bool) : option (World * Actions) :=
  let '(w, a) := acc in
  let instanceId := instanceInfo.1 in
  let instanceEnabled := instanceInfo.2 in
  if instanceEnabled &&
     (negb (IsKnownClient w (AddonInfo_ID addon) instanceId) ||
      negb (IsCreatedClient w (AddonInfo_ID addon) instanceId))
  then
    let iClientId := ClientIdFromAddonIdAndInstanceId (AddonInfo_ID addon) instanceId in
    let '(client, w) :=
      if IsKnownClient w (AddonInfo_ID addon) instanceId
      then (GetClient w iClientId, w)
      else let '(p, w) := make_shared addon instanceId w in (Some p, w) in
    instanceEnabled ←
      (if bool_decide (instanceId ≠ ADDON_SINGLETON_INSTANCE_ID)
       then c ← client;
            Some (default instanceEnabled
                    (GetSettingBool_INSTANCE_ENABLED instanceId (heap w c)))
       else Some instanceEnabled);
    Some (w, if instanceEnabled : bool
             then push_create (client, iClientId) a
             else push_destroy (addon, instanceId) a)
  else if IsCreatedClient w (AddonInfo_ID addon) instanceId
  then
    let '(instanceEnabled, w) :=
      if instanceEnabled && bool_decide (instanceId ≠ ADDON_SINGLETON_INSTANCE_ID)
      then
        match GetClient w (GetClientId w (AddonInfo_ID addon) instanceId) with
        | Some client =>
            let w := call_on client (ReloadSettings instanceId) w in
            (default instanceEnabled
               (GetSettingBool_INSTANCE_ENABLED instanceId (heap w client)), w)
        | None => (false, w)
        end
      else (instanceEnabled, w) in
    Some (w, if instanceEnabled : bool
             then push_recreate (addon, instanceId) a
             else push_destroy (addon, instanceId) a)
  else Some (w, a).

(** A loop whose body may fail. *)
Fixpoint foldM {A B : Type} (f : A -> B -> option A) (a : A) (l : list B) : option A :=
  match l with
  | [] => Some a
  | b :: l => a ← f a b; foldM f a l
  end.

(** Lines 120-203: the classification of every instance of every add-on. *)
Definition classify (changedAddonId : string) (changedInstanceId : N)
    (addonsWithStatus : list (AddonInfo * bool)) (w : World) : option (World * Actions) :=
  foldM (fun acc addonWithStatus =>
           foldM (classify_instance addonWithStatus.1) acc
                 (instanceIdsWithStatus changedAddonId changedInstanceId
                    addonWithStatus.1 addonWithStatus.2))
        (w, no_actions) addonsWithStatus.

(** Lines 213-233: one step of the loop over [addonsToCreate]; [i] is the
    progress counter. *)
Definition create_step (total : N) (acc : N * World) (addon : option Ptr * Z)
  : option (N * World) :=
  let '(i, w) := acc in
  client ← addon.1;
  let w := emit (UpdateProgress (Name (heap w client)) i total) w in
  let '(status, obj) := Create addon.2 (heap w client) in
  let w := set_heap (<[client := obj]> (heap w)) w in
  let w :=
    if bool_decide (status ≠ ADDON_STATUS_OK)
    then
      let w := emit (CLog_Log LOGERROR "Failed to create add-on {}, status = {}"
                       [arg_string (ID (heap w client)); arg_status status]) w in
      if bool_decide (status = ADDON_STATUS_PERMANENT_FAILURE)
      then
        let w := set_addonMgr (DisableAddon (ID (heap w client)) (addonMgr w)) w in
        emit (AddJob_CPVREventLogJob true true (Name (heap w client))
                (g_localizeStrings_Get 24070) (Icon (heap w client))) w
      else w
    else w in
  Some ((i + 1)%N, w).

(** Lines 235-242. *)
Definition recreate_step (total : N) (acc : N * World) (addon : AddonInfo * N) : N * World :=
  let '(i, w) := acc in
  let w := emit (UpdateProgress (AddonInfo_Name addon.1) i total) w in
  ((i + 1)%N, (StopClient (AddonInfo_ID addon.1) addon.2 true w).2).

(** Lines 246-250. *)
Definition destroy_step (w : World) (addon : AddonInfo * N) : World :=
  (StopClient (AddonInfo_ID addon.1) addon.2 false w).2.

(** Lines 256-262; the pointer was dereferenced by [create_step] before. *)
Definition merge_step (w : World) (addon : option Ptr * Z) : option World :=
  client ← addon.1;
  Some (set_clientMap (map_insert addon.2 client (m_clientMap w)) w).

(** Lines 207-265: the actions carried out. *)
Definition apply_actions (a : Actions) (w : World) : option World :=
  let w := emit PVRManager_Stop w in
  let w := emit (CPVRGUIProgressHandler_new (g_localizeStrings_Get 19239)) w in
  let total := N.of_nat (List.length (addonsToCreate a) + List.length (addonsToReCreate a)) in
  '(i, w) ← foldM (create_step total) (0%N, w) (addonsToCreate a);
  let '(_, w) := foldl (recreate_step total) (i, w) (addonsToReCreate a) in
  let w := emit CPVRGUIProgressHandler_reset w in
  let w := foldl destroy_step w (addonsToDestroy a) in
  w ← foldM merge_step w (addonsToCreate a);
  Some (emit PVRManager_Start w).

Definition UpdateAddons (changedAddonId : string) (changedInstanceId : N) (w : World)
  : option World :=
  let addons := GetAddonInfos false (addonMgr w) in
  if bool_decide (addons = []) then Some w
  else
    let addonsWithStatus :=
      map (fun addon => (addon, negb (IsAddonDisabled (AddonInfo_ID addon) (addonMgr w))))
          addons in
    let bFoundChangedAddon :=
      bool_decide (changedAddonId = EmptyString) ||
      existsb (fun addon => bool_decide (AddonInfo_ID addon = changedAddonId)) addons in
    if negb bFoundChangedAddon then Some w
    else
      '(w, a) ← classify changedAddonId changedInstanceId addonsWithStatus w;
      if any_action a then apply_actions a w else Some w.

End Clients.

Arguments lastError {CPVRClient CAddonMgr S}.
Arguments failedClients {CPVRClient CAddonMgr S}.
Arguments closure {CPVRClient CAddonMgr S}.
Arguments world {CPVRClient CAddonMgr S}.

(** ** Further methods of the clients *)

(** [CPVRClient::Stop] and [CPVRClient::Continue], called at lines 78 and 87. *)
Class CPVRClientControlClass (CPVRClient : Type) : Type := {
  CPVRClient_Stop : CPVRClient -> CPVRClient;
  CPVRClient_Continue : CPVRClient -> CPVRClient
}.

(** [client->GetClientCapabilities().SupportsX()], for the capabilities
    lines 715-784 ask for. *)
Class CPVRClientCapabilitiesClass (CPVRClient : Type) : Type := {
  SupportsTV : CPVRClient -> bool;
  SupportsRadio : CPVRClient -> bool;
  SupportsEPG : CPVRClient -> bool;
  SupportsRecordings : CPVRClient -> bool;
  SupportsRecordingsDelete : CPVRClient -> bool;
  SupportsRecordingsSize : CPVRClient -> bool;
  SupportsChannelScan : CPVRClient -> bool;
  SupportsChannelSettings : CPVRClient -> bool
}.

(** [client->GetTimerTypes(types)]: the timer types the call leaves in
    [types] and the error code it returns. *)
Class CPVRClientTimerTypesClass (CPVRClient CPVRTimerType : Type) : Type := {
  CPVRClient_GetTimerTypes : CPVRClient -> list CPVRTimerType * PVR_ERROR
}.

Section MoreClients.
Context {P : Platform}.
Context {CPVRClient : Type} {client_class : CPVRClientClass CPVRClient}.
Context {control_class : CPVRClientControlClass CPVRClient}.
Context {capabilities_class : CPVRClientCapabilitiesClass CPVRClient}.
Context {CPVRTimerType : Type}
        {timer_types_class : CPVRClientTimerTypesClass CPVRClient CPVRTimerType}.
Context {CAddonMgr : Type} {addon_mgr_class : CAddonMgrClass CAddonMgr}.

Abbreviation World := (@World CPVRClient CAddonMgr).

(** *** Start, Stop, Continue (lines 68-89) *)

Definition Start (w : World) : option World := UpdateAddons EmptyString 0 w.

Definition Stop (w : World) : World :=
  foldl (fun w client => call_on client.2 CPVRClient_Stop w) w (entries (m_clientMap w)).

Definition Continue (w : World) : World :=
  foldl (fun w client => call_on client.2 CPVRClient_Continue w) w (entries (m_clientMap w)).

(** *** Client access (lines 385-471 and 504-570) *)

(** [GetCreatedClient]: the value returned and the pointer left in [addon],
    null when [GetClient] found nothing. *)
Definition GetCreatedClient (w : World) (iClientId : Z) : bool * option Ptr :=
  match GetClient w iClientId with
  | Some addon => (ReadyToUse (heap w addon), Some addon)
  | None => (false, None)
  end.

(** [IsCreatedClient(int)]. *)
Definition IsCreatedClient_id (w : World) (iClientId : Z) : bool :=
  (GetCreatedClient w iClientId).1.

(** [GetCreatedClients]: the value returned and the map [clients] as the
    call leaves it. *)
Definition GetCreatedClients (clients : gmap Z Ptr) (w : World) : Z * gmap Z Ptr :=
  foldl (fun (acc : Z * gmap Z Ptr) (client : Z * Ptr) =>
           if ReadyToUse (heap w client.2)
           then (static_cast_int (acc.1 + 1),
                 map_insert (GetID (heap w client.2)) client.2 acc.2)
           else acc)
        (0, clients) (entries (m_clientMap w)).

Definition GetFirstCreatedClientID (w : World) : Z :=
  match find (fun client : Z * Ptr => ReadyToUse (heap w client.2))
             (entries (m_clientMap w)) with
  | Some it => GetID (heap w it.2)
  | None => -1
  end.

Definition EnabledClientAmount (w : World) : Z :=
  static_cast_int
    (Z.of_nat (List.length
       (filter (fun client : Z * Ptr =>
                  IsAddonDisabled (ID (heap w client.2)) (addonMgr w) = false)
               (entries (m_clientMap w))))).

Definition IsEnabledClient (w : World) (clientId : Z) : bool :=
  match GetClient w clientId with
  | Some client => negb (IsAddonDisabled (ID (heap w client)) (addonMgr w))
  | None => false
  end.

Definition HasIgnoredClients (w : World) : bool :=
  existsb (fun client : Z * Ptr => IgnoreClient (heap w client.2)) (entries (m_clientMap w)).

(** *** Client API calls (lines 613-784)

    Each returns its result with the world, whose trace holds the calls and
    the warnings of the fan-out. *)

(** [GetTimers]; [client_GetTimers] is [client->GetTimers(timers)] with the
    container as its state. *)
Definition GetTimers {S : Type} (clients : list Ptr) (client_GetTimers : PVRClientFunction S)
    (timers : S) (w : World) : bool * FanOut S :=
  let r := ForClients "GetTimers" clients client_GetTimers timers w in
  (bool_decide (lastError r = PVR_ERROR_NO_ERROR), r).

Definition GetTimerTypes (results : list CPVRTimerType) (w : World)
  : FanOut (list CPVRTimerType) :=
  ForCreatedClients "GetTimerTypes"
    (fun client results =>
       let '(types, ret) := CPVRClient_GetTimerTypes (heap w client) in
       (ret, if bool_decide (ret = PVR_ERROR_NO_ERROR) then results ++ types else results))
    results w.

Definition GetClientsSupportingChannelScan (w : World) : list Ptr * World :=
  let r :=
    ForCreatedClients "GetClientsSupportingChannelScan"
      (fun client possibleScanClients =>
         (PVR_ERROR_NO_ERROR,
          if SupportsChannelScan (heap w client)
          then possibleScanClients ++ [client] else possibleScanClients))
      [] w in
  (closure r, world r).

Definition GetClientsSupportingChannelSettings (bRadio : bool) (w : World)
  : list Ptr * World :=
  let r :=
    ForCreatedClients "GetClientsSupportingChannelSettings"
      (fun client possibleSettingsClients =>
         let caps := heap w client in
         (PVR_ERROR_NO_ERROR,
          if SupportsChannelSettings caps &&
             ((bRadio && SupportsRadio caps) || (negb bRadio && SupportsTV caps))
          then possibleSettingsClients ++ [client] else possibleSettingsClients))
      [] w in
  (closure r, world r).

Definition AnyClientSupportingRecordingsSize (w : World) : bool * World :=
  let r :=
    ForCreatedClients "AnyClientSupportingRecordingsSize"
      (fun client recordingSizeClients =>
         (PVR_ERROR_NO_ERROR,
          if SupportsRecordingsSize (heap w client)
          then recordingSizeClients ++ [client] else recordingSizeClients))
      [] w in
  (negb (bool_decide (List.length (closure r) = 0%nat)), world r).

Definition AnyClientSupportingEPG (w : World) : bool * World :=
  let r :=
    ForCreatedClients "AnyClientSupportingEPG"
      (fun client bHaveSupportingClient =>
         (PVR_ERROR_NO_ERROR,
          if SupportsEPG (heap w client) then true else bHaveSupportingClient))
      false w in
  (closure r, world r).

Definition AnyClientSupportingRecordings (w : World) : bool * World :=
  let r :=
    ForCreatedClients "AnyClientSupportingRecordings"
      (fun client bHaveSupportingClient =>
         (PVR_ERROR_NO_ERROR,
          if SupportsRecordings (heap w client) then true else bHaveSupportingClient))
      false w in
  (closure r, world r).

Definition AnyClientSupportingRecordingsDelete (w : World) : bool * World :=
  let r :=
    ForCreatedClients "AnyClientSupportingRecordingsDelete"
      (fun client bHaveSupportingClient =>
         (PVR_ERROR_NO_ERROR,
          if SupportsRecordingsDelete (heap w client) then true else bHaveSupportingClient))
      false w in
  (closure r, world r).

End MoreClients.

(** ** A concrete platform and concrete collaborators

    Used for the closed examples below.  The constants are those of Kodi's
    headers ([ADDON_SINGLETON_INSTANCE_ID = 0], [ADDON_FIRST_INSTANCE_ID = 1],
    [PVR_INVALID_CLIENT_ID = -2]); the hasher is the [std::hash<std::string>]
    of GNU libstdc++ on a 64-bit little-endian target, [_Hash_bytes] with
    seed [0xc70f6907]. *)

Module LibStdCxx.

Definition size_t (z : Z) : Z := z mod 2 ^ 64.
Definition mul : Z := 0xc6a4a7935bd1e995.
Definition seed : Z := 0xc70f6907.
Definition shift_mix (v : Z) : Z := Z.lxor v (Z.shiftr v 47).

Fixpoint load_bytes (p : list Z) : Z :=
  match p with
  | [] => 0
  | b :: p => b + 256 * load_bytes p
  end.

Fixpoint Hash_loop (buf : list Z) (hash : Z) : Z :=
  match buf with
  | b0 :: b1 :: b2 :: b3 :: b4 :: b5 :: b6 :: b7 :: rest =>
      let data :=
        size_t (shift_mix (size_t (load_bytes [b0; b1; b2; b3; b4; b5; b6; b7] * mul)) * mul) in
      Hash_loop rest (size_t (Z.lxor hash data * mul))
  | [] => hash
  | tail => size_t (Z.lxor hash (load_bytes tail) * mul)
  end.

Fixpoint bytes_of (s : string) : list Z :=
  match s with
  | EmptyString => []
  | String a s => Z.of_N (Ascii.N_of_ascii a) :: bytes_of s
  end.

Definition Hash_bytes (s : string) : Z :=
  let buf := bytes_of s in
  let hash := Z.lxor seed (size_t (Z.of_nat (List.length buf) * mul)) in
  let hash := Hash_loop buf hash in
  let hash := size_t (shift_mix hash * mul) in
  shift_mix hash.

End LibStdCxx.

Definition kodi_platform : Platform :=
  {| hasher := LibStdCxx.Hash_bytes;
     ADDON_SINGLETON_INSTANCE_ID := 0%N;
     ADDON_FIRST_INSTANCE_ID := 1%N;
     PVR_INVALID_CLIENT_ID := -2;
     g_localizeStrings_Get := fun id => to_string (Z.to_N id) |}.

(** A client object reduced to the attributes this file reads. *)
Record DemoClient : Type := {
  demo_ID : string;
  demo_InstanceId : N;
  demo_GetID : Z;
  demo_ReadyToUse : bool;
  demo_IgnoreClient : bool;
  demo_PreviousConnectionState : PVR_CONNECTION_STATE;
  demo_instance_enabled : bool;
  demo_create_status : ADDON_STATUS
}.

Definition demo_set_ready (id : Z) (ready : bool) (c : DemoClient) : DemoClient :=
  {| demo_ID := demo_ID c; demo_InstanceId := demo_InstanceId c; demo_GetID := id;
     demo_ReadyToUse := ready; demo_IgnoreClient := demo_IgnoreClient c;
     demo_PreviousConnectionState := demo_PreviousConnectionState c;
     demo_instance_enabled := demo_instance_enabled c;
     demo_create_status := demo_create_status c |}.

#[global] Instance demo_client_class : CPVRClientClass DemoClient :=
  {| ID := demo_ID;
     InstanceId := demo_InstanceId;
     GetID := demo_GetID;
     Name := demo_ID;
     Icon := fun _ => "icon.png"%string;
     ReadyToUse := demo_ReadyToUse;
     IgnoreClient := demo_IgnoreClient;
     GetPreviousConnectionState := demo_PreviousConnectionState;
     GetSettingBool_INSTANCE_ENABLED := fun _ c => Some (demo_instance_enabled c);
     ReloadSettings := fun _ c => c;
     Create := fun id c =>
       (demo_create_status c,
        demo_set_ready id (bool_decide (demo_create_status c = ADDON_STATUS_OK)) c);
     ReCreate := fun c =>
       demo_set_ready (demo_GetID c) (bool_decide (demo_create_status c = ADDON_STATUS_OK)) c;
     Destroy := fun c => demo_set_ready (demo_GetID c) false c;
     make_shared_CPVRClient := fun addon instanceId =>
       {| demo_ID := AddonInfo_ID addon; demo_InstanceId := instanceId; demo_GetID := -2;
          demo_ReadyToUse := false; demo_IgnoreClient := false;
          demo_PreviousConnectionState := PVR_CONNECTION_STATE_UNKNOWN;
          demo_instance_enabled := true; demo_create_status := ADDON_STATUS_OK |} |}.

(** An add-on manager reduced to its inventory: each add-on with its
    disabled flag. *)
#[global] Instance demo_addon_mgr_class : CAddonMgrClass (list (AddonInfo * bool)) :=
  {| GetAddonInfos := fun onlyEnabled mgr =>
       map fst (List.filter (fun e : AddonInfo * bool => negb onlyEnabled || negb e.2) mgr);
     IsAddonDisabled := fun id mgr =>
       existsb (fun e : AddonInfo * bool => bool_decide (AddonInfo_ID e.1 = id) && e.2) mgr;
     DisableAddon := fun id mgr =>
       map (fun e : AddonInfo * bool =>
              if bool_decide (AddonInfo_ID e.1 = id) then (e.1, true) else e) mgr |}.

Definition demo_client (id : string) (instance : N) (clientId : Z) (ready ignore : bool)
  : DemoClient :=
  {| demo_ID := id; demo_InstanceId := instance; demo_GetID := clientId;
     demo_ReadyToUse := ready; demo_IgnoreClient := ignore;
     demo_PreviousConnectionState := PVR_CONNECTION_STATE_UNKNOWN;
     demo_instance_enabled := true; demo_create_status := ADDON_STATUS_OK |}.

Definition demo_world := @World DemoClient (list (AddonInfo * bool)).

(** Two add-ons, and three clients at the addresses 0, 1 and 2, each under
    the client id derived for it on the concrete platform; a fourth client,
    at address 5, is not ready to use. *)
Definition hts : AddonInfo :=
  {| AddonInfo_ID := "pvr.hts"; AddonInfo_Name := "Tvheadend HTSP Client";
     GetKnownInstanceIds := [1%N] |}.

Definition iptvsimple : AddonInfo :=
  {| AddonInfo_ID := "pvr.iptvsimple"; AddonInfo_Name := "IPTV Simple Client";
     GetKnownInstanceIds := [1%N; 2%N] |}.

Definition demo_heap (p : Ptr) : DemoClient :=
  match p with
  | 0%nat => demo_client "pvr.hts" 1 2025648334 true false
  | 1%nat => demo_client "pvr.iptvsimple" 1 381956049 true false
  | 2%nat => demo_client "pvr.iptvsimple" 2 1959976652 true true
  | _ => demo_client "pvr.demo" 1 1442559222 false false
  end.

(** The first two clients registered, both add-ons enabled, playback active. *)
Definition demo_w : demo_world :=
  {| m_clientMap := list_to_map [(2025648334, 0%nat); (381956049, 1%nat)];
     heap := demo_heap; heap_top := 6%nat;
     addonMgr := [(hts, false); (iptvsimple, false)];
     IsPlaying := true; trace := [] |}.

(** Nothing registered, the one add-on disabled. *)
Definition demo_w_disabled : demo_world :=
  {| m_clientMap := ∅; heap := demo_heap; heap_top := 6%nat;
     addonMgr := [(hts, true)]; IsPlaying := false; trace := [] |}.

(** Nothing registered, the one add-on enabled. *)
Definition demo_w_fresh : demo_world :=
  {| m_clientMap := ∅; heap := demo_heap; heap_top := 6%nat;
     addonMgr := [(hts, false)]; IsPlaying := false; trace := [] |}.

(** [demo_heap] with a second client object, at address 3, that carries the
    client id of the client at address 0 and is ready to use as well. *)
Definition demo_heap_twins (p : Ptr) : DemoClient :=
  match p with
  | 3%nat => demo_client "pvr.hts" 1 2025648334 true false
  | _ => demo_heap p
  end.

Definition demo_w_twins : demo_world :=
  {| m_clientMap := list_to_map [(2025648334, 0%nat); (381956049, 1%nat)];
     heap := demo_heap_twins; heap_top := 6%nat;
     addonMgr := [(hts, false); (iptvsimple, false)];
     IsPlaying := true; trace := [] |}.

(** An add-on whose id hashes to a value with the [int] cast [INT_MIN]. *)
Definition demo3863933971 : AddonInfo :=
  {| AddonInfo_ID := "pvr.demo3863933971"; AddonInfo_Name := "PVR Demo Client";
     GetKnownInstanceIds := [1%N] |}.

(** Nothing registered, that add-on enabled, no playback. *)
Definition demo_w_int_min : demo_world :=
  {| m_clientMap := ∅; heap := demo_heap; heap_top := 6%nat;
     addonMgr := [(demo3863933971, false)]; IsPlaying := false; trace := [] |}.

(** An operation that succeeds on every client. *)
Definition demo_ok : PVRClientFunction unit := fun _ s => (PVR_ERROR_NO_ERROR, s).

(** An operation the client at address 0 does not implement and the client
    at address 1 fails. *)
Definition demo_mixed : PVRClientFunction unit :=
  fun client s =>
    (match client with
     | 0%nat => PVR_ERROR_NOT_IMPLEMENTED
     | 1%nat => PVR_ERROR_SERVER_ERROR
     | _ => PVR_ERROR_NO_ERROR
     end, s).

(** An operation that fails on every client. *)
Definition demo_failing : PVRClientFunction unit := fun _ s => (PVR_ERROR_SERVER_ERROR, s).

(** The demo clients stop answering while stopped. *)
#[global] Instance demo_client_control_class : CPVRClientControlClass DemoClient :=
  {| CPVRClient_Stop := fun c => demo_set_ready (demo_GetID c) false c;
     CPVRClient_Continue := fun c => demo_set_ready (demo_GetID c) true c |}.

(** The clients of pvr.hts have every capability, the others TV, radio and
    EPG only. *)
Definition demo_is_hts (c : DemoClient) : bool := bool_decide (demo_ID c = "pvr.hts"%string).

#[global] Instance demo_client_capabilities_class : CPVRClientCapabilitiesClass DemoClient :=
  {| SupportsTV := fun _ => true;
     SupportsRadio := fun _ => true;
     SupportsEPG := fun _ => true;
     SupportsRecordings := demo_is_hts;
     SupportsRecordingsDelete := demo_is_hts;
     SupportsRecordingsSize := demo_is_hts;
     SupportsChannelScan := demo_is_hts;
     SupportsChannelSettings := demo_is_hts |}.

(** Timer types by name: the clients of pvr.hts return two, the others fail
    after writing one. *)
#[global] Instance demo_client_timer_types_class : CPVRClientTimerTypesClass DemoClient string :=
  {| CPVRClient_GetTimerTypes := fun c =>
       if demo_is_hts c
       then (["Once"; "Series"]%string, PVR_ERROR_NO_ERROR)
       else (["Partial"]%string, PVR_ERROR_SERVER_ERROR) |}.

(** ** Vocabulary of the statements *)

(** The calls of the operation closure recorded in a trace. *)
Definition calls_of (tr : list Event) : list (Z * Ptr * PVR_ERROR) :=
  omap (fun e => match e with
                 | Invoke_function id client result => Some (id, client, result)
                 | _ => None
                 end) tr.

(** The last failure among the results of [calls], [d] when there is none. *)
Definition last_failure_from (d : PVR_ERROR) (calls : list (Z * Ptr * PVR_ERROR)) : PVR_ERROR :=
  default d (last (filter (fun e => is_failure e = true) calls.*2)).

Definition last_failure (calls : list (Z * Ptr * PVR_ERROR)) : PVR_ERROR :=
  last_failure_from PVR_ERROR_NO_ERROR calls.

(** The client ids of the calls that failed, in call order. *)
Definition failures (calls : list (Z * Ptr * PVR_ERROR)) : list Z :=
  (filter (fun c : Z * Ptr * PVR_ERROR => is_failure c.2 = true) calls).*1.*1.

(** The results [function] returns when it is called on the clients of
    [targets] in turn, each call starting from the closure state the call
    before it left. *)
Fixpoint returns {S : Type} (function : PVRClientFunction S) (s : S)
    (targets : list (Z * Ptr)) : list (Z * Ptr * PVR_ERROR) :=
  match targets with
  | [] => []
  | clientEntry :: targets =>
      (clientEntry, (function clientEntry.2 s).1) ::
      returns function (function clientEntry.2 s).2 targets
  end.

(** A log line at warning level. *)
Definition is_warning (e : Event) : Prop :=
  ∃ format args, e = CLog_Log LOGWARNING format args.

Section Vocabulary.
Context {P : Platform}.
Context {CPVRClient : Type} {client_class : CPVRClientClass CPVRClient}.
Context {CAddonMgr : Type} {addon_mgr_class : CAddonMgrClass CAddonMgr}.

Abbreviation World := (@World CPVRClient CAddonMgr).

(** What a run from [w] to [w'] added to the trace. *)
Definition events_since (w w' : World) : list Event :=
  drop (List.length (trace w)) (trace w').

(** A client of the given add-on and instance is in the map. *)
Definition registered (w : World) (addonId : string) (instanceId : N) : Prop :=
  ∃ (k : Z) (p : Ptr),
    m_clientMap w !! k = Some p ∧
    ID (heap w p) = addonId ∧ InstanceId (heap w p) = instanceId.

(** Every key of the map passes the test of [GetClient] and differs from
    -1, the value [GetClientId] returns when it finds nothing. *)
Definition registry_ids_valid (w : World) : Prop :=
  ∀ (k : Z) (p : Ptr), m_clientMap w !! k = Some p -> PVR_INVALID_CLIENT_ID < k ∧ k ≠ -1.

(** The failed list a fan-out starts its calls with: the clients
    [GetCallableClients] found not callable, or the result of the scan of
    the client map. *)
Definition initial_failed (w : World) (clients : list Ptr) : list Z :=
  match clients with
  | [] => (GetCallableClients w).1.2
  | _ => ForClients_scan w clients
  end.

(** The entry of the map is ready to use, not ignored, and one of the
    requested clients carries its key as client id. *)
Definition allowed (w : World) (clients : list Ptr) (entry : Z * Ptr) : Prop :=
  ReadyToUse (heap w entry.2) = true ∧ IgnoreClient (heap w entry.2) = false ∧
  ∃ client, client ∈ clients ∧ GetID (heap w client) = entry.1.

(** The state of the classification is as before, or an action is listed. *)
Definition unchanged_or_action (acc acc' : World * Actions) : Prop :=
  acc' = acc ∨ any_action acc'.2 = true.

(** Every key of the client map satisfies [Q]. *)
Definition keys_satisfy (Q : Z -> Prop) (w : World) : Prop :=
  ∀ (k : Z) (p : Ptr), m_clientMap w !! k = Some p -> Q k.

(** Every client id listed for creation is one [ClientIdFromAddonIdAndInstanceId]
    returns. *)
Definition creates_derived_ids (a : Actions) : Prop :=
  Forall (fun e : option Ptr * Z =>
            ∃ addonID instanceID, e.2 = ClientIdFromAddonIdAndInstanceId addonID instanceID)
         (addonsToCreate a).

(** The trace of [w'] continues that of [w] with events that are neither
    the stop nor the start of the PVR manager. *)
Definition continues_inside (w w' : World) : Prop :=
  ∃ evs : list Event,
    trace w' = trace w ++ evs ∧ (PVRManager_Stop ∉ evs) ∧ (PVRManager_Start ∉ evs).

(** Every client id listed for creation satisfies [Q]. *)
Definition creates_satisfy (Q : Z -> Prop) (a : Actions) : Prop :=
  Forall (fun e : option Ptr * Z => Q e.2) (addonsToCreate a).

(** [k] is the id derived for a known instance of an add-on that the
    add-on manager lists (line 95) and has not disabled (line 104). *)
Definition known_enabled_instance (w : World) (k : Z) : Prop :=
  ∃ (addon : AddonInfo) (instanceId : N),
    addon ∈ GetAddonInfos false (addonMgr w) ∧
    IsAddonDisabled (AddonInfo_ID addon) (addonMgr w) = false ∧
    instanceId ∈ GetKnownInstanceIds addon ∧
    k = ClientIdFromAddonIdAndInstanceId (AddonInfo_ID addon) instanceId.

(** The client ids [GetCallableClients] looks at, in the order of its
    loops: the id derived for each known instance of each enabled add-on. *)
Definition enabled_instance_ids (w : World) : list Z :=
  addon ← GetAddonInfos true (addonMgr w);
  (fun instanceId => ClientIdFromAddonIdAndInstanceId (AddonInfo_ID addon) instanceId)
    <$> GetKnownInstanceIds addon.

(** The client map holds [p] under [id] (an id [GetClient] accepts), and
    [p] is ready to use and not ignored. *)
Definition usable (w : World) (id : Z) (p : Ptr) : Prop :=
  GetClient w id = Some p ∧
  ReadyToUse (heap w p) = true ∧ IgnoreClient (heap w p) = false.

(** [p], held under [id], can be called by [ForCreatedClients]. *)
Definition callable (w : World) (id : Z) (p : Ptr) : Prop :=
  id ∈ enabled_instance_ids w ∧ usable w id p.

End Vocabulary.

(** * Properties *)

(** ** Client id derivation *)

Lemma static_cast_int_range (z : Z) : INT_MIN ≤ static_cast_int z ≤ INT_MAX.
Proof.
  unfold static_cast_int, INT_MIN, INT_MAX.
  pose proof (Z.mod_pos_bound (z + 2 ^ 31) (2 ^ 32) ltac:(lia)). lia.
Qed.

Lemma static_cast_int_id (z : Z) : INT_MIN ≤ z ≤ INT_MAX -> static_cast_int z = z.
Proof.
  unfold static_cast_int, INT_MIN, INT_MAX. intros Hz.
  rewrite Z.mod_small; lia.
Qed.

(** X2.  When the [int] cast of the hash is not [INT_MIN], the derived
    client id is a non-negative [int]. *)
Lemma ClientIdFromHash_nonneg (h : Z) :
  static_cast_int h ≠ INT_MIN -> 0 ≤ ClientIdFromHash h ≤ INT_MAX.
Proof.
  intros Hmin. unfold ClientIdFromHash, int_neg.
  pose proof (static_cast_int_range h) as Hr.
  destruct (Z.ltb_spec (static_cast_int h) 0) as [Hneg | Hpos].
  - rewrite static_cast_int_id; unfold INT_MIN, INT_MAX in *; lia.
  - unfold INT_MAX in *; lia.
Qed.

Section ClientIdProperties.
Context {P : Platform}.

(** C1 (amended).  The derivation is a function of its two arguments: equal
    arguments give equal ids.  The id is computed from the hash of
    [hashed_string], which is the add-on id alone for every instance id up
    to and including [ADDON_FIRST_INSTANCE_ID] (so for the first instance,
    and for any instance id below it), and the decimal instance id, an at
    sign and the add-on id for every instance id above it. *)
Theorem ClientId_hashed_string (addonID addonID' : string) (instanceID instanceID' : N) :
  (addonID = addonID' -> instanceID = instanceID' ->
   ClientIdFromAddonIdAndInstanceId addonID instanceID =
   ClientIdFromAddonIdAndInstanceId addonID' instanceID') ∧
  ClientIdFromAddonIdAndInstanceId addonID instanceID =
    ClientIdFromHash (hasher (hashed_string addonID instanceID)) ∧
  ClientIdFromAddonIdAndInstanceId addonID ADDON_FIRST_INSTANCE_ID =
    ClientIdFromHash (hasher addonID) ∧
  ((instanceID ≤ ADDON_FIRST_INSTANCE_ID)%N ->
   hashed_string addonID instanceID = addonID) ∧
  ((ADDON_FIRST_INSTANCE_ID < instanceID)%N ->
   hashed_string addonID instanceID = ((to_string instanceID ++ "@") ++ addonID)%string).
Proof.
  repeat split.
  - intros -> ->. reflexivity.
  - unfold ClientIdFromAddonIdAndInstanceId, hashed_string.
    rewrite N.ltb_irrefl. reflexivity.
  - intros Hle. unfold hashed_string.
    destruct (N.ltb_spec ADDON_FIRST_INSTANCE_ID instanceID); [lia | reflexivity].
  - intros Hlt. unfold hashed_string.
    destruct (N.ltb_spec ADDON_FIRST_INSTANCE_ID instanceID); [reflexivity | lia].
Qed.

End ClientIdProperties.

(** C1, witness: instance 1 and instance 5 of pvr.hts on the concrete
    platform. *)
Lemma ClientId_hashed_string_witness :
  hashed_string (P := kodi_platform) "pvr.hts" 1 = "pvr.hts"%string ∧
  hashed_string (P := kodi_platform) "pvr.hts" 5 = "5@pvr.hts"%string.
Proof.
  split.
  - apply (ClientId_hashed_string (P := kodi_platform) "pvr.hts" "pvr.hts" 1 1).
    vm_compute. discriminate.
  - apply (ClientId_hashed_string (P := kodi_platform) "pvr.hts" "pvr.hts" 5 5).
    vm_compute. reflexivity.
Defined.

(** C1, counterexample.  The singleton instance id 0 is not the first
    instance id 1, yet its hashed string is the add-on id alone, not
    "0@pvr.hts", and the two strings hash to different client ids. *)
Lemma ClientId_singleton_instance_has_no_prefix :
  (0%N ≠ ADDON_FIRST_INSTANCE_ID (Platform := kodi_platform)) ∧
  hashed_string (P := kodi_platform) "pvr.hts" 0 = "pvr.hts"%string ∧
  hashed_string (P := kodi_platform) "pvr.hts" 0 ≠ (to_string 0 ++ "@" ++ "pvr.hts")%string ∧
  ClientIdFromAddonIdAndInstanceId (P := kodi_platform) "pvr.hts" 0 =
    ClientIdFromAddonIdAndInstanceId (P := kodi_platform) "pvr.hts" 1 ∧
  ClientIdFromAddonIdAndInstanceId (P := kodi_platform) "pvr.hts" 0 ≠
    ClientIdFromHash (hasher (Platform := kodi_platform) "0@pvr.hts").
Proof.
  repeat split; vm_compute; congruence.
Qed.

(** C5.  On the concrete platform the add-on id pvr.demo3828919009 hashes
    to 0xa15efb0f00000000, whose [int] cast is 0: the derived client id is
    0, which is not strictly positive.  The add-on id pvr.demo3863933971
    hashes to 0x6ac613ed80000000, whose [int] cast is [INT_MIN]: the
    negation wraps and the derived id is [INT_MIN]. *)
Lemma ClientId_not_strictly_positive :
  hasher (Platform := kodi_platform) "pvr.demo3828919009" = 0xa15efb0f00000000 ∧
  ClientIdFromAddonIdAndInstanceId (P := kodi_platform) "pvr.demo3828919009" 1 = 0 ∧
  hasher (Platform := kodi_platform) "pvr.demo3863933971" = 0x6ac613ed80000000 ∧
  ClientIdFromAddonIdAndInstanceId (P := kodi_platform) "pvr.demo3863933971" 1 = INT_MIN ∧
  ClientIdFromHash 0 = 0 ∧
  ClientIdFromHash (2 ^ 31) = INT_MIN.
Proof.
  repeat split; vm_compute; reflexivity.
Qed.

(** ** The client map *)

Lemma entries_Permutation {V : Type} (m : gmap Z V) : entries m ≡ₚ map_to_list m.
Proof. apply merge_sort_Permutation. Qed.

Lemma elem_of_entries {V : Type} (m : gmap Z V) (k : Z) (v : V) :
  (k, v) ∈ entries m ↔ m !! k = Some v.
Proof. rewrite entries_Permutation. apply elem_of_map_to_list. Qed.

Lemma length_entries {V : Type} (m : gmap Z V) : List.length (entries m) = size m.
Proof. rewrite entries_Permutation. apply length_map_to_list. Qed.

Lemma NoDup_fst_entries {V : Type} (m : gmap Z V) : NoDup (entries m).*1.
Proof. rewrite entries_Permutation. apply NoDup_fst_map_to_list. Qed.

Lemma lookup_map_insert {V : Type} (k k' : Z) (v : V) (m : gmap Z V) :
  map_insert k v m !! k' =
  if decide (k = k') then Some (default v (m !! k)) else m !! k'.
Proof.
  unfold map_insert. destruct (m !! k) as [v0|] eqn:Hk.
  - destruct (decide (k = k')) as [<-|]; [exact Hk | reflexivity].
  - rewrite lookup_insert. destruct (decide (k = k')); reflexivity.
Qed.

Section RegistryProperties.
Context {P : Platform}.
Context {CPVRClient : Type} {client_class : CPVRClientClass CPVRClient}.
Context {CAddonMgr : Type} {addon_mgr_class : CAddonMgrClass CAddonMgr}.

Abbreviation World := (@World CPVRClient CAddonMgr).

Lemma find_addon_instance_Some (w : World) (addonId : string) (instanceId : N)
    (k : Z) (p : Ptr) :
  find_addon_instance w addonId instanceId = Some (k, p) ->
  m_clientMap w !! k = Some p ∧
  ID (heap w p) = addonId ∧ InstanceId (heap w p) = instanceId.
Proof.
  unfold find_addon_instance. intros Hfind.
  apply find_some in Hfind as [Hin Hmatch].
  apply list_elem_of_In, elem_of_entries in Hin. simpl in Hmatch.
  apply andb_true_iff in Hmatch as [H1 H2].
  apply bool_decide_eq_true in H1, H2. auto.
Qed.

Lemma find_addon_instance_None (w : World) (addonId : string) (instanceId : N) :
  find_addon_instance w addonId instanceId = None -> ¬ registered w addonId instanceId.
Proof.
  unfold find_addon_instance. intros Hfind (k & p & Hk & Hid & Hinst).
  apply elem_of_entries, list_elem_of_In in Hk.
  pose proof (find_none _ _ Hfind _ Hk) as Hno. simpl in Hno.
  rewrite !bool_decide_eq_true_2 in Hno by assumption. discriminate.
Qed.

Lemma find_addon_instance_registered (w : World) (addonId : string) (instanceId : N) :
  registered w addonId instanceId ->
  ∃ k p, find_addon_instance w addonId instanceId = Some (k, p).
Proof.
  intros Hreg. destruct (find_addon_instance w addonId instanceId) as [[k p]|] eqn:Hfind.
  - eauto.
  - exfalso. eapply find_addon_instance_None; eauto.
Qed.

(** C10.  With fewer than 2^31 clients in the map (so that the count fits
    the [int] it is returned as), [HasCreatedClients] is true exactly when
    [CreatedClientAmount] is positive; both look at the entries of the map
    whose client is ready to use. *)
Theorem HasCreatedClients_iff_amount_positive (w : World) :
  Z.of_nat (size (m_clientMap w)) < 2 ^ 31 ->
  (HasCreatedClients w = true ↔ 0 < CreatedClientAmount w) ∧
  CreatedClientAmount w =
    Z.of_nat (List.length (filter (fun client : Z * Ptr => ReadyToUse (heap w client.2) = true)
                                  (entries (m_clientMap w)))) ∧
  (HasCreatedClients w = true ↔
   ∃ k p, m_clientMap w !! k = Some p ∧ ReadyToUse (heap w p) = true).
Proof.
  intros Hsize. unfold HasCreatedClients, CreatedClientAmount.
  rewrite <- length_entries in Hsize.
  set (l := entries (m_clientMap w)) in *.
  set (ready := fun client : Z * Ptr => ReadyToUse (heap w client.2) = true).
  assert (Hcast : static_cast_int (Z.of_nat (List.length (filter ready l))) =
                  Z.of_nat (List.length (filter ready l))).
  { apply static_cast_int_id. pose proof (length_filter ready l).
    unfold INT_MIN, INT_MAX. lia. }
  rewrite Hcast.
  assert (Hex : existsb (fun client : Z * Ptr => ReadyToUse (heap w client.2)) l = true ↔
                ∃ x, x ∈ l ∧ ready x).
  { rewrite existsb_exists. setoid_rewrite list_elem_of_In. reflexivity. }
  split; [| split]; [| reflexivity |].
  - rewrite Hex. split.
    + intros (x & Hin & Hx).
      assert (Hf : x ∈ filter ready l) by (apply list_elem_of_filter; auto).
      destruct (filter ready l); [inversion Hf | simpl; lia].
    + intros Hpos. destruct (filter ready l) as [|x l'] eqn:Hf; [simpl in Hpos; lia |].
      assert (Hx : x ∈ filter ready l) by (rewrite Hf; left).
      apply list_elem_of_filter in Hx as [Hx Hin]. eauto.
  - rewrite Hex. split.
    + intros ([k p] & Hin & Hx). apply elem_of_entries in Hin. eauto.
    + intros (k & p & Hk & Hr). exists (k, p). split; [by apply elem_of_entries | exact Hr].
Qed.

(** C9.  [StopClient] extends the trace by the stop-playback message when,
    and only when, playback is active; the lookup of the client plays no
    part in it, and nothing else is emitted. *)
Theorem StopClient_stops_playback (addonId : string) (instanceId : N) (bRestart : bool)
    (w : World) :
  trace (StopClient addonId instanceId bRestart w).2 =
  trace w ++ (if IsPlaying w then [SendMsg_TMSG_MEDIA_STOP] else []).
Proof.
  unfold StopClient.
  destruct (IsPlaying w); simpl;
    match goal with |- context [GetClient ?w' ?i] => destruct (GetClient w' i) end;
    destruct bRestart; simpl; rewrite ?app_nil_r; reflexivity.
Qed.

(** X18.  Over a map whose keys are valid client ids: if a client of
    (addonId, instanceId) is registered, [StopClient] returns true and
    acts on one such entry; with [bRestart] the map is left as it is and the
    client is recreated, without it the entry is erased from the map and the
    client is destroyed.  If no such client is registered, [StopClient]
    returns false and leaves the map and every client as they are. *)
Theorem StopClient_registered (addonId : string) (instanceId : N) (bRestart : bool)
    (w : World) :
  registry_ids_valid w ->
  let r := StopClient addonId instanceId bRestart w in
  (registered w addonId instanceId ->
   r.1 = true ∧
   ∃ (iId : Z) (mappedClient : Ptr),
     m_clientMap w !! iId = Some mappedClient ∧
     ID (heap w mappedClient) = addonId ∧
     InstanceId (heap w mappedClient) = instanceId ∧
     if bRestart
     then m_clientMap r.2 = m_clientMap w ∧
          heap r.2 = <[mappedClient := ReCreate (heap w mappedClient)]> (heap w)
     else m_clientMap r.2 = delete iId (m_clientMap w) ∧
          m_clientMap r.2 !! iId = None ∧
          heap r.2 = <[mappedClient := Destroy (heap w mappedClient)]> (heap w)) ∧
  (¬ registered w addonId instanceId ->
   r.1 = false ∧ m_clientMap r.2 = m_clientMap w ∧ heap r.2 = heap w).
Proof.
  intros Hvalid r.
  assert (Hplay : ∀ w0 : World,
            w0 = (if IsPlaying w then emit SendMsg_TMSG_MEDIA_STOP w else w) ->
            m_clientMap w0 = m_clientMap w ∧ heap w0 = heap w).
  { intros w0 ->. destruct (IsPlaying w); auto. }
  subst r. unfold StopClient.
  set (w0 := if IsPlaying w then emit SendMsg_TMSG_MEDIA_STOP w else w).
  destruct (Hplay w0 eq_refl) as [Hmap Hheap].
  assert (Hfind : find_addon_instance w0 addonId instanceId =
                  find_addon_instance w addonId instanceId).
  { unfold find_addon_instance. rewrite Hmap, Hheap. reflexivity. }
  unfold GetClientId, GetClient. rewrite Hfind, Hmap.
  split.
  - intros Hreg. apply find_addon_instance_registered in Hreg as (k & p & Hkp).
    rewrite Hkp. simpl.
    apply find_addon_instance_Some in Hkp as (Hk & Hid & Hinst).
    destruct (Hvalid k p Hk) as [Hgt _].
    rewrite bool_decide_eq_false_2 by lia. rewrite Hk.
    destruct bRestart; simpl; (split; [reflexivity |]);
      exists k, p; rewrite ?Hmap, ?Hheap; repeat split; auto.
    apply lookup_delete_eq.
  - intros Hnot.
    destruct (find_addon_instance w addonId instanceId) as [[k p]|] eqn:Hkp.
    + exfalso. apply Hnot. exists k, p. by apply find_addon_instance_Some.
    + simpl. destruct (bool_decide (-1 ≤ PVR_INVALID_CLIENT_ID)); [by auto |].
      destruct (m_clientMap w !! (-1)) as [p|] eqn:Hm1; [| by auto].
      exfalso. destruct (Hvalid _ _ Hm1) as [_ Hne]. by apply Hne.
Qed.

(** C7.  [ConnectionStateChange] for a client emits exactly one event.  For
    the target states [SERVER_UNREACHABLE] and [CONNECTED] reached from
    [UNKNOWN] or [CONNECTING], and for the target state [CONNECTING], it is
    an event log job that does not notify the user; for [SERVER_UNREACHABLE]
    reached from [CONNECTED] it is an event log job that notifies the user;
    for a target state the switch does not know it is an error log line, so
    no event log job at all. *)
Theorem ConnectionStateChange_notification (client : Ptr) (strConnectionString : string)
    (newState : PVR_CONNECTION_STATE) (strMessage : string) (w : World) :
  let previous := GetPreviousConnectionState (heap w client) in
  let strMsg (iMsg : Z) :=
    if bool_decide (strMessage = EmptyString) then g_localizeStrings_Get iMsg else strMessage in
  let job (bNotify bError : bool) (iMsg : Z) :=
    AddJob_CPVREventLogJob bNotify bError (Name (heap w client)) (strMsg iMsg)
      (Icon (heap w client)) in
  ∃ e : Event,
    trace (ConnectionStateChange (Some client) strConnectionString newState strMessage w) =
      trace w ++ [e] ∧
    (newState = PVR_CONNECTION_STATE_SERVER_UNREACHABLE ->
     previous = PVR_CONNECTION_STATE_UNKNOWN ∨ previous = PVR_CONNECTION_STATE_CONNECTING ->
     e = job false true 35505) ∧
    (newState = PVR_CONNECTION_STATE_CONNECTED ->
     previous = PVR_CONNECTION_STATE_UNKNOWN ∨ previous = PVR_CONNECTION_STATE_CONNECTING ->
     e = job false false 36034) ∧
    (newState = PVR_CONNECTION_STATE_CONNECTING -> e = job false false 35509) ∧
    (newState = PVR_CONNECTION_STATE_SERVER_UNREACHABLE ->
     previous = PVR_CONNECTION_STATE_CONNECTED ->
     e = job true true 35505) ∧
    (newState = PVR_CONNECTION_STATE_UNKNOWN ∨
     (∃ value, newState = PVR_CONNECTION_STATE_out_of_range value) ->
     e = CLog_Log LOGERROR "Unknown connection state" []).
Proof.
  intros previous strMsg job. subst previous strMsg job.
  unfold ConnectionStateChange.
  destruct (bool_decide (strMessage = EmptyString)) eqn:Hmsg; simpl;
    destruct newState; simpl; eexists; (split; [reflexivity |]);
    repeat split; intros; try discriminate;
    repeat match goal with
           | H : _ ∨ _ |- _ => destruct H
           | H : ∃ _, _ |- _ => destruct H
           | H : GetPreviousConnectionState _ = _ |- _ => rewrite H
           end;
    try discriminate; reflexivity.
Qed.

End RegistryProperties.

(** ** Fan-out *)

Lemma is_failure_false (e : PVR_ERROR) :
  is_failure e = false ↔ e = PVR_ERROR_NO_ERROR ∨ e = PVR_ERROR_NOT_IMPLEMENTED.
Proof.
  unfold is_failure. rewrite andb_false_iff, !bool_decide_eq_false.
  destruct (decide (e = PVR_ERROR_NO_ERROR)), (decide (e = PVR_ERROR_NOT_IMPLEMENTED)); tauto.
Qed.

Lemma calls_of_app (tr1 tr2 : list Event) :
  calls_of (tr1 ++ tr2) = calls_of tr1 ++ calls_of tr2.
Proof. apply omap_app. Qed.

Lemma calls_of_cons (e : Event) (tr : list Event) :
  calls_of (e :: tr) =
  match e with
  | Invoke_function id client result => [(id, client, result)]
  | _ => []
  end ++ calls_of tr.
Proof. by destruct e. Qed.

Lemma calls_of_invocations (calls : list (Z * Ptr * PVR_ERROR)) :
  calls_of ((fun c : Z * Ptr * PVR_ERROR => Invoke_function c.1.1 c.1.2 c.2) <$> calls) = calls.
Proof.
  induction calls as [|[[id p] e] calls IH]; [reflexivity |].
  rewrite fmap_cons, calls_of_cons, IH. reflexivity.
Qed.

Lemma last_failure_from_cons (d : PVR_ERROR) (c : Z * Ptr * PVR_ERROR)
    (calls : list (Z * Ptr * PVR_ERROR)) :
  last_failure_from d (c :: calls) =
  last_failure_from (if is_failure c.2 then c.2 else d) calls.
Proof.
  unfold last_failure_from. rewrite fmap_cons, filter_cons.
  destruct (is_failure c.2) eqn:Hc.
  - rewrite decide_True by reflexivity. rewrite last_cons.
    by destruct (last _).
  - rewrite decide_False by discriminate. reflexivity.
Qed.

Lemma last_failure_from_app (d : PVR_ERROR) (l1 l2 : list (Z * Ptr * PVR_ERROR)) :
  last_failure_from d (l1 ++ l2) = last_failure_from (last_failure_from d l1) l2.
Proof.
  revert d. induction l1 as [|c l1 IH]; intros d; [reflexivity |].
  rewrite <- app_comm_cons, !last_failure_from_cons. apply IH.
Qed.

Lemma failures_cons (c : Z * Ptr * PVR_ERROR) (calls : list (Z * Ptr * PVR_ERROR)) :
  failures (c :: calls) = (if is_failure c.2 then [c.1.1] else []) ++ failures calls.
Proof.
  unfold failures. rewrite filter_cons.
  destruct (is_failure c.2) eqn:Hc.
  - rewrite decide_True by reflexivity. reflexivity.
  - rewrite decide_False by discriminate. reflexivity.
Qed.

Lemma failures_app (l1 l2 : list (Z * Ptr * PVR_ERROR)) :
  failures (l1 ++ l2) = failures l1 ++ failures l2.
Proof. unfold failures. by rewrite filter_app, !fmap_app. Qed.

Lemma last_failure_from_failure (d : PVR_ERROR) (calls : list (Z * Ptr * PVR_ERROR)) :
  is_failure d = true -> is_failure (last_failure_from d calls) = true.
Proof.
  revert d. induction calls as [|c calls IH]; intros d Hd; [exact Hd |].
  rewrite last_failure_from_cons. destruct (is_failure c.2) eqn:Hc; by apply IH.
Qed.

(** No failure is recorded exactly when no call failed. *)
Lemma last_failure_no_error (calls : list (Z * Ptr * PVR_ERROR)) :
  last_failure calls = PVR_ERROR_NO_ERROR ↔
  Forall (fun c : Z * Ptr * PVR_ERROR => is_failure c.2 = false) calls.
Proof.
  unfold last_failure. induction calls as [|c calls IH].
  - split; [constructor | reflexivity].
  - rewrite last_failure_from_cons, Forall_cons.
    destruct (is_failure c.2) eqn:Hc.
    + split; [intros H | intros [? _]; discriminate].
      pose proof (last_failure_from_failure _ calls Hc) as Hf.
      rewrite H in Hf. discriminate.
    + rewrite IH. tauto.
Qed.

Section DispatchProperties.
Context {P : Platform}.
Context {CPVRClient : Type} {client_class : CPVRClientClass CPVRClient}.
Context {CAddonMgr : Type} {addon_mgr_class : CAddonMgrClass CAddonMgr}.
Context {S : Type}.

Abbreviation World := (@World CPVRClient CAddonMgr).
Abbreviation FanOut := (@FanOut CPVRClient CAddonMgr S).

Lemma events_since_app (w w' : World) (evs : list Event) :
  trace w' = trace w ++ evs -> events_since w w' = evs.
Proof. unfold events_since. intros ->. apply drop_app_length. Qed.

(** What one call does to the variables of the loop. *)
Lemma invoke_spec (function : PVRClientFunction S) (id : Z) (client : Ptr) (st : FanOut) :
  let e := (function client (closure st)).1 in
  let st' := invoke function id client st in
  world st' = emit (Invoke_function id client e) (world st) ∧
  lastError st' = (if is_failure e then e else lastError st) ∧
  failedClients st' = failedClients st ++ (if is_failure e then [id] else []) ∧
  closure st' = (function client (closure st)).2.
Proof.
  unfold invoke. destruct (function client (closure st)) as [e s]. simpl.
  destruct (is_failure e); simpl; rewrite ?app_nil_r; auto.
Qed.

Lemma ForCreatedClients_loop (function : PVRClientFunction S) (targets : list (Z * Ptr))
    (st : FanOut) :
  let st' := foldl (fun st clientEntry => invoke function clientEntry.1 clientEntry.2 st)
                   st targets in
  ∃ calls : list (Z * Ptr * PVR_ERROR),
    trace (world st') =
      trace (world st) ++
      ((fun c : Z * Ptr * PVR_ERROR => Invoke_function c.1.1 c.1.2 c.2) <$> calls) ∧
    calls.*1 = targets ∧
    lastError st' = last_failure_from (lastError st) calls ∧
    failedClients st' = failedClients st ++ failures calls.
Proof.
  revert st. induction targets as [|[id client] targets IH]; intros st; simpl.
  - exists []. simpl. rewrite !app_nil_r. auto.
  - destruct (invoke_spec function id client st) as (Hw & He & Hf & _).
    destruct (IH (invoke function id client st)) as (calls & Htr & Htg & Herr & Hfail).
    exists ((id, client, (function client (closure st)).1) :: calls).
    rewrite Htr, Herr, Hfail, Hw, He, Hf, !fmap_cons, Htg.
    rewrite last_failure_from_cons, failures_cons. simpl.
    repeat split; by rewrite <- ?app_assoc.
Qed.

Lemma client_warning_no_call (strFunctionName : string) (client : CPVRClient) :
  calls_of [client_warning strFunctionName client] = [].
Proof. unfold client_warning. by repeat case_match. Qed.

Lemma warn_not_callable_spec (strFunctionName : string) (w : World) (id : Z) :
  ∃ logs : list Event,
    trace (warn_not_callable strFunctionName w id) = trace w ++ logs ∧
    calls_of logs = [] ∧
    heap (warn_not_callable strFunctionName w id) = heap w ∧
    m_clientMap (warn_not_callable strFunctionName w id) = m_clientMap w.
Proof.
  unfold warn_not_callable. destruct (GetClient w id) as [client|].
  - exists [client_warning strFunctionName (heap w client)].
    split; [reflexivity |]. split; [apply client_warning_no_call | auto].
  - exists []. rewrite app_nil_r. auto.
Qed.

Lemma warn_not_callable_loop (strFunctionName : string) (failed : list Z) (w : World) :
  let w1 := foldl (warn_not_callable strFunctionName) w failed in
  ∃ logs : list Event,
    trace w1 = trace w ++ logs ∧ calls_of logs = [] ∧
    heap w1 = heap w ∧ m_clientMap w1 = m_clientMap w.
Proof.
  revert w. induction failed as [|id failed IH]; intros w; simpl.
  - exists []. rewrite app_nil_r. auto.
  - destruct (warn_not_callable_spec strFunctionName w id) as (l1 & Htr1 & Hc1 & Hh1 & Hm1).
    destruct (IH (warn_not_callable strFunctionName w id)) as (logs & Htr & Hc & Hh & Hm).
    exists (l1 ++ logs).
    rewrite Htr, Htr1, Hh, Hh1, Hm, Hm1, calls_of_app, Hc, Hc1, <- app_assoc. auto.
Qed.

(** A pass of [ForCreatedClients]: warnings, then one call for each entry of
    [clientsReady] in map order. *)
Lemma ForCreatedClients_run (strFunctionName : string) (function : PVRClientFunction S)
    (s : S) (w : World) :
  let r := ForCreatedClients strFunctionName function s w in
  let calls := calls_of (events_since w (world r)) in
  calls.*1 = entries (GetCallableClients w).1.1 ∧
  lastError r = last_failure calls ∧
  failedClients r = (GetCallableClients w).1.2 ++ failures calls.
Proof.
  unfold ForCreatedClients.
  destruct (GetCallableClients w) as [[clients failed] err] eqn:Hg. simpl.
  destruct (warn_not_callable_loop strFunctionName failed w) as (logs & Htr & Hc & _ & _).
  match goal with |- context [foldl ?f ?st0 (entries clients)] =>
    destruct (ForCreatedClients_loop function (entries clients) st0)
      as (calls & Htr' & Htg & Herr & Hfail)
  end.
  simpl in Htr', Herr, Hfail.
  rewrite Htr, <- app_assoc in Htr'.
  rewrite (events_since_app _ _ _ Htr'), calls_of_app, Hc, calls_of_invocations. simpl.
  auto.
Qed.

(** The test of line 972, [std::none_of] over the failed list. *)
Lemma none_of_failed (failed : list Z) (id : Z) :
  forallb (fun failedClientId => negb (bool_decide (failedClientId = id))) failed = true ↔
  id ∉ failed.
Proof.
  rewrite forallb_forall. split.
  - intros H Hin. apply list_elem_of_In, H in Hin.
    by rewrite bool_decide_eq_true_2 in Hin.
  - intros Hnot x Hx. apply negb_true_iff, bool_decide_eq_false_2.
    intros ->. by apply Hnot, list_elem_of_In.
Qed.

Lemma last_failure_from_one (d : PVR_ERROR) (c : Z * Ptr * PVR_ERROR) :
  last_failure_from d [c] = (if is_failure c.2 then c.2 else d).
Proof. by rewrite last_failure_from_cons. Qed.

Lemma failures_one (c : Z * Ptr * PVR_ERROR) :
  failures [c] = (if is_failure c.2 then [c.1.1] else []).
Proof. by rewrite failures_cons, app_nil_r. Qed.

(** One step of the loop of [ForClients]: a call, for a client id not in
    the failed list, or a warning, for a client id in it. *)
Lemma ForClients_step_spec (strFunctionName : string) (function : PVRClientFunction S)
    (st : FanOut) (client : Ptr) :
  let h := heap (world st) in
  let st1 := ForClients_step strFunctionName function st client in
  ∃ e : Event,
    trace (world st1) = trace (world st) ++ [e] ∧
    heap (world st1) = h ∧
    lastError st1 = last_failure_from (lastError st) (calls_of [e]) ∧
    failedClients st1 = failedClients st ++ failures (calls_of [e]) ∧
    ((e = client_warning strFunctionName (h client) ∧
      GetID (h client) ∈ failedClients st) ∨
     (∃ result, e = Invoke_function (GetID (h client)) client result ∧
                GetID (h client) ∉ failedClients st)).
Proof.
  intros h st1. subst st1. unfold ForClients_step. fold h.
  destruct (forallb _ (failedClients st)) eqn:Htest.
  - apply none_of_failed in Htest.
    destruct (invoke_spec function (GetID (h client)) client st) as (Hw & He & Hf & _).
    exists (Invoke_function (GetID (h client)) client (function client (closure st)).1).
    rewrite Hw, He, Hf.
    change (calls_of [Invoke_function ?i ?c ?r]) with [(i, c, r)].
    rewrite last_failure_from_one, failures_one.
    repeat split; [right; eauto].
  - assert (Hin : GetID (h client) ∈ failedClients st).
    { destruct (decide (GetID (h client) ∈ failedClients st)) as [|Hn]; [done |].
      apply none_of_failed in Hn. congruence. }
    exists (client_warning strFunctionName (h client)).
    rewrite client_warning_no_call. unfold failures, last_failure_from. simpl.
    rewrite app_nil_r. repeat split; [left; auto].
Qed.

(** A pass of the loop of [ForClients] from any state [st]: one event per
    requested client, either a call, for a client id not failed at the
    start, or a warning, for a client id failed by the end. *)
Lemma ForClients_loop (strFunctionName : string) (function : PVRClientFunction S)
    (h : Ptr -> CPVRClient) (clients : list Ptr) (st : FanOut) :
  heap (world st) = h ->
  let st' := foldl (ForClients_step strFunctionName function) st clients in
  ∃ evs : list Event,
    trace (world st') = trace (world st) ++ evs ∧
    heap (world st') = h ∧
    lastError st' = last_failure_from (lastError st) (calls_of evs) ∧
    failedClients st' = failedClients st ++ failures (calls_of evs) ∧
    Forall2 (fun client e =>
               (e = client_warning strFunctionName (h client) ∧
                GetID (h client) ∈ failedClients st') ∨
               (∃ result, e = Invoke_function (GetID (h client)) client result ∧
                          GetID (h client) ∉ failedClients st))
            clients evs.
Proof.
  revert st. induction clients as [|client clients IH]; intros st Hh; simpl.
  - exists []. rewrite !app_nil_r. repeat split; auto.
  - destruct (ForClients_step_spec strFunctionName function st client)
      as (e & Htr1 & Hh1 & Herr1 & Hfail1 & Hcase).
    rewrite Hh in Hh1, Hcase.
    set (st1 := ForClients_step strFunctionName function st client) in *.
    destruct (IH st1 Hh1) as (evs & Htr & Hh' & Herr & Hfail & Hall).
    exists (e :: evs). rewrite Htr, Htr1, Herr, Herr1, Hfail, Hfail1, <- !app_assoc.
    change (e :: evs) with ([e] ++ evs).
    rewrite calls_of_app, last_failure_from_app, failures_app.
    repeat split; auto.
    apply Forall2_cons. split.
    + destruct Hcase as [[-> Hin] | Hcall]; [left | right; exact Hcall].
      split; [reflexivity |]. rewrite !elem_of_app. tauto.
    + eapply Forall2_impl; [exact Hall |]. simpl.
      intros c e' [[-> Hl] | (res & -> & Hn)].
      * left. split; [reflexivity |].
        rewrite Hfail, Hfail1, !elem_of_app in Hl. rewrite !elem_of_app. tauto.
      * right. exists res. split; [reflexivity |].
        rewrite Hfail1, elem_of_app in Hn. tauto.
Qed.

Lemma elem_of_calls_of (tr : list Event) (id : Z) (client : Ptr) (result : PVR_ERROR) :
  (id, client, result) ∈ calls_of tr ↔ Invoke_function id client result ∈ tr.
Proof.
  unfold calls_of. rewrite list_elem_of_omap. split.
  - intros (e & Hin & He). destruct e; try discriminate. by inversion He; subst.
  - intros Hin. eexists. split; [exact Hin | reflexivity].
Qed.

Lemma failures_subseteq (calls : list (Z * Ptr * PVR_ERROR)) (id : Z) :
  id ∈ failures calls -> id ∈ calls.*1.*1.
Proof.
  unfold failures. rewrite !list_elem_of_fmap.
  intros (x & -> & (y & -> & Hy)%list_elem_of_fmap).
  apply list_elem_of_filter in Hy as [_ Hy]. eauto using list_elem_of_fmap_2.
Qed.

Lemma shall_be_called_allowed (w : World) (clients : list Ptr) (entry : Z * Ptr) :
  shall_be_called w clients entry = true ↔ allowed w clients entry.
Proof.
  unfold shall_be_called, allowed.
  rewrite !andb_true_iff, negb_true_iff, existsb_exists.
  setoid_rewrite bool_decide_eq_true. setoid_rewrite list_elem_of_In. tauto.
Qed.

(** The scan of [ForClients] collects the keys of the entries that are not
    allowed, in map order. *)
Lemma ForClients_scan_filter (w : World) (clients : list Ptr) :
  ForClients_scan w clients =
  (filter (fun entry : Z * Ptr => shall_be_called w clients entry = false)
          (entries (m_clientMap w))).*1.
Proof.
  unfold ForClients_scan.
  assert (Hgen : ∀ l acc,
    foldl (fun failed (entry : Z * Ptr) =>
             if shall_be_called w clients entry then failed else failed ++ [entry.1]) acc l =
    acc ++ (filter (fun entry : Z * Ptr => shall_be_called w clients entry = false) l).*1).
  { induction l as [|entry l IH]; intros acc; simpl; [by rewrite app_nil_r |].
    rewrite IH, filter_cons. destruct (shall_be_called w clients entry).
    - by rewrite decide_False.
    - rewrite decide_True by reflexivity. by rewrite fmap_cons, <- app_assoc. }
  apply (Hgen _ []).
Qed.

Lemma elem_of_ForClients_scan (w : World) (clients : list Ptr) (k : Z) :
  k ∈ ForClients_scan w clients ↔
  ∃ p, m_clientMap w !! k = Some p ∧ ¬ allowed w clients (k, p).
Proof.
  rewrite ForClients_scan_filter, list_elem_of_fmap. split.
  - intros ([k' p] & -> & [Hn Hin%elem_of_entries]%list_elem_of_filter).
    exists p. split; [exact Hin |]. rewrite <- shall_be_called_allowed. simpl. congruence.
  - intros (p & Hk & Hn). exists (k, p). split; [reflexivity |].
    apply list_elem_of_filter. split; [| by apply elem_of_entries].
    rewrite <- shall_be_called_allowed in Hn. by destruct (shall_be_called w clients (k, p)).
Qed.

(** A pass of [ForClients] over a non-empty request. *)
Lemma ForClients_run (strFunctionName : string) (clients : list Ptr)
    (function : PVRClientFunction S) (s : S) (w : World) :
  clients ≠ [] ->
  let r := ForClients strFunctionName clients function s w in
  let evs := events_since w (world r) in
  lastError r = last_failure (calls_of evs) ∧
  failedClients r = ForClients_scan w clients ++ failures (calls_of evs) ∧
  Forall2 (fun client e =>
             (e = client_warning strFunctionName (heap w client) ∧
              GetID (heap w client) ∈ failedClients r) ∨
             (∃ result, e = Invoke_function (GetID (heap w client)) client result ∧
                        GetID (heap w client) ∉ ForClients_scan w clients))
          clients evs.
Proof.
  intros Hne. unfold ForClients. destruct clients as [|c0 clients]; [done |].
  match goal with |- context [foldl ?f ?st0 ?l] =>
    destruct (ForClients_loop strFunctionName function (heap w) l st0 eq_refl)
      as (evs & Htr & _ & Herr & Hfail & Hall)
  end.
  cbn [world lastError failedClients] in Htr, Herr, Hfail. cbv zeta.
  rewrite (events_since_app _ _ _ Htr). auto.
Qed.

Lemma filter_ext_elem {A : Type} (F G : A -> Prop)
    `{∀ x, Decision (F x)} `{∀ x, Decision (G x)} (l : list A) :
  (∀ x, x ∈ l -> F x ↔ G x) -> filter F l = filter G l.
Proof.
  induction l as [|x l IH]; intros Hext; [reflexivity |].
  rewrite !filter_cons, IH by (intros y Hy; apply Hext; by right).
  pose proof (Hext x ltac:(left)) as Hx.
  destruct (decide (F x)), (decide (G x)); try reflexivity; tauto.
Qed.

(** When no client id is requested twice, the calls of the loop of
    [ForClients] are the requested clients whose id is not failed at the
    start, whatever the calls return. *)
Lemma ForClients_loop_NoDup (strFunctionName : string) (function : PVRClientFunction S)
    (h : Ptr -> CPVRClient) (clients : list Ptr) (st : FanOut) :
  heap (world st) = h ->
  NoDup ((fun client => GetID (h client)) <$> clients) ->
  let st' := foldl (ForClients_step strFunctionName function) st clients in
  (calls_of (events_since (world st) (world st'))).*1 =
  (fun client => (GetID (h client), client)) <$>
    filter (fun client => GetID (h client) ∉ failedClients st) clients.
Proof.
  revert st. induction clients as [|client clients IH]; intros st Hh Hnd; simpl.
  - unfold events_since. by rewrite drop_all.
  - rewrite fmap_cons in Hnd. apply NoDup_cons in Hnd as [Hfresh Hnd].
    destruct (ForClients_step_spec strFunctionName function st client)
      as (e & Htr1 & Hh1 & Herr1 & Hfail1 & Hcase).
    rewrite Hh in Hh1, Hcase.
    set (st1 := ForClients_step strFunctionName function st client) in *.
    destruct (ForClients_loop strFunctionName function h clients st1 Hh1)
      as (evs & Htr & _).
    specialize (IH st1 Hh1 Hnd). simpl in IH.
    rewrite (events_since_app _ _ _ Htr) in IH.
    rewrite Htr1, <- app_assoc in Htr.
    rewrite (events_since_app _ _ _ Htr), calls_of_app, fmap_app, IH, filter_cons.
    assert (Hsame : filter (fun c => GetID (h c) ∉ failedClients st1) clients =
                    filter (fun c => GetID (h c) ∉ failedClients st) clients).
    { apply filter_ext_elem. intros c Hc. rewrite Hfail1, elem_of_app.
      assert (GetID (h c) ∉ failures (calls_of [e])); [| tauto].
      intros Hin%failures_subseteq.
      destruct Hcase as [[-> _] | (res & -> & _)].
      - rewrite client_warning_no_call in Hin. by apply elem_of_nil in Hin.
      - change (calls_of [Invoke_function ?i ?c ?r]) with [(i, c, r)] in Hin.
        simpl in Hin. apply list_elem_of_singleton in Hin.
        apply Hfresh. rewrite <- Hin. by apply (list_elem_of_fmap_2 (fun c => GetID (h c))). }
    rewrite Hsame.
    destruct Hcase as [[-> Hin] | (res & -> & Hnin)].
    + rewrite client_warning_no_call, decide_False by tauto. reflexivity.
    + rewrite decide_True by exact Hnin. reflexivity.
Qed.

(** [ForClients] with an empty request is [ForCreatedClients] (line 948). *)
Lemma ForClients_empty_request (strFunctionName : string)
    (function : PVRClientFunction S) (s : S) (w : World) :
  ForClients strFunctionName [] function s w =
  ForCreatedClients strFunctionName function s w.
Proof. reflexivity. Qed.

(** *** The calls of a pass and what the operation returns *)

Lemma returns_fst (function : PVRClientFunction S) (s : S) (targets : list (Z * Ptr)) :
  (returns function s targets).*1 = targets.
Proof.
  revert s. induction targets as [|t targets IH]; intros s; [reflexivity |].
  simpl. by rewrite IH.
Qed.

(** The calls of the loop of [ForCreatedClients] carry what [function]
    returns. *)
Lemma ForCreatedClients_loop_returns (function : PVRClientFunction S)
    (targets : list (Z * Ptr)) (st : FanOut) :
  trace (world (foldl (fun st clientEntry => invoke function clientEntry.1 clientEntry.2 st)
                      st targets)) =
  trace (world st) ++
  ((fun c : Z * Ptr * PVR_ERROR => Invoke_function c.1.1 c.1.2 c.2) <$>
     returns function (closure st) targets).
Proof.
  revert st. induction targets as [|[id client] targets IH]; intros st; simpl.
  - by rewrite app_nil_r.
  - destruct (invoke_spec function id client st) as (Hw & _ & _ & Hs).
    rewrite IH, Hw, Hs. simpl. by rewrite <- app_assoc.
Qed.

Lemma ForCreatedClients_returns (strFunctionName : string) (function : PVRClientFunction S)
    (s : S) (w : World) :
  calls_of (events_since w (world (ForCreatedClients strFunctionName function s w))) =
  returns function s (entries (GetCallableClients w).1.1).
Proof.
  unfold ForCreatedClients.
  destruct (GetCallableClients w) as [[clients failed] err]. simpl.
  destruct (warn_not_callable_loop strFunctionName failed w) as (logs & Htr & Hc & _ & _).
  match goal with |- context [foldl ?f ?st0 (entries clients)] =>
    pose proof (ForCreatedClients_loop_returns function (entries clients) st0) as Htr'
  end.
  cbn [world closure] in Htr'. rewrite Htr, <- app_assoc in Htr'.
  by rewrite (events_since_app _ _ _ Htr'), calls_of_app, Hc, calls_of_invocations.
Qed.

(** One turn of the loop of [ForClients], by the test of line 972. *)
Lemma ForClients_step_turn (strFunctionName : string) (function : PVRClientFunction S)
    (st : FanOut) (client : Ptr) :
  let h := heap (world st) in
  let id := GetID (h client) in
  let st1 := ForClients_step strFunctionName function st client in
  heap (world st1) = h ∧
  if decide (id ∈ failedClients st)
  then trace (world st1) = trace (world st) ++ [client_warning strFunctionName (h client)] ∧
       closure st1 = closure st ∧ failedClients st1 = failedClients st
  else trace (world st1) =
         trace (world st) ++ [Invoke_function id client (function client (closure st)).1] ∧
       closure st1 = (function client (closure st)).2 ∧
       failedClients st1 =
         failedClients st ++ failures [(id, client, (function client (closure st)).1)].
Proof.
  intros h id st1. subst st1. unfold ForClients_step. fold h. fold id.
  destruct (decide (id ∈ failedClients st)) as [Hin | Hnot].
  - assert (Htest : forallb (fun failedClientId => negb (bool_decide (failedClientId = id)))
                            (failedClients st) = false).
    { apply not_true_is_false. rewrite none_of_failed. tauto. }
    rewrite Htest. auto.
  - apply none_of_failed in Hnot as Htest. rewrite Htest.
    destruct (invoke_spec function id client st) as (Hw & _ & Hf & Hs).
    rewrite Hw, Hf, Hs, failures_one. auto.
Qed.

(** The turns of the loop of [ForClients] from any state [st]: the client
    at position [i] is called when its id is neither failed at the start
    nor the id of a call that failed before its turn, and gets the warning
    otherwise; the calls carry what [function] returns. *)
Lemma ForClients_loop_turns (strFunctionName : string) (function : PVRClientFunction S)
    (h : Ptr -> CPVRClient) (clients : list Ptr) (st : FanOut) :
  heap (world st) = h ->
  let st' := foldl (ForClients_step strFunctionName function) st clients in
  ∃ evs : list Event,
    trace (world st') = trace (world st) ++ evs ∧
    List.length evs = List.length clients ∧
    calls_of evs = returns function (closure st) (calls_of evs).*1 ∧
    ∀ (i : nat) (client : Ptr),
      clients !! i = Some client ->
      evs !! i =
        Some (if decide (GetID (h client) ∈
                           failedClients st ++ failures (calls_of (take i evs)))
              then client_warning strFunctionName (h client)
              else Invoke_function (GetID (h client)) client
                     (function client
                        (foldl (fun s (c : Z * Ptr * PVR_ERROR) => (function c.1.2 s).2)
                               (closure st) (calls_of (take i evs)))).1).
Proof.
  revert st. induction clients as [|client clients IH]; intros st Hh; simpl.
  - exists []. rewrite app_nil_r. repeat split; auto. intros i c Hi. by destruct i.
  - destruct (ForClients_step_turn strFunctionName function st client) as (Hh1 & Hturn).
    rewrite Hh in Hh1, Hturn.
    set (st1 := ForClients_step strFunctionName function st client) in *.
    destruct (IH st1 Hh1) as (evs & Htr & Hlen & Hret & Hpos).
    destruct (decide (GetID (h client) ∈ failedClients st)) as [Hin | Hnot].
    + destruct Hturn as (Htr1 & Hs1 & Hf1).
      exists (client_warning strFunctionName (h client) :: evs).
      assert (Hcons : ∀ l, calls_of (client_warning strFunctionName (h client) :: l) =
                           calls_of l).
      { intros l. change (?e :: l) with ([e] ++ l).
        by rewrite calls_of_app, client_warning_no_call. }
      rewrite Hcons, <- Hs1.
      split; [by rewrite Htr, Htr1, <- app_assoc |].
      split; [cbn [List.length]; by rewrite Hlen |].
      split; [exact Hret |].
      intros [|i] c Hi.
      * injection Hi as <-. cbn [take lookup list_lookup].
        change (calls_of []) with (@nil (Z * Ptr * PVR_ERROR)).
        change (failures []) with (@nil Z).
        rewrite app_nil_r, decide_True by exact Hin. reflexivity.
      * change ((client :: clients) !! Datatypes.S i) with (clients !! i) in Hi.
        change ((?e :: evs) !! Datatypes.S i) with (evs !! i).
        change (take (Datatypes.S i) (?e :: evs)) with (e :: take i evs).
        rewrite Hcons, <- Hf1. by apply Hpos.
    + destruct Hturn as (Htr1 & Hs1 & Hf1).
      set (e := (function client (closure st)).1) in *.
      exists (Invoke_function (GetID (h client)) client e :: evs).
      assert (Hcons : ∀ l, calls_of (Invoke_function (GetID (h client)) client e :: l) =
                           (GetID (h client), client, e) :: calls_of l).
      { intros l. by rewrite calls_of_cons. }
      rewrite Hcons.
      split; [by rewrite Htr, Htr1, <- app_assoc |].
      split; [cbn [List.length]; by rewrite Hlen |].
      split.
      * rewrite fmap_cons. cbn [returns fst snd]. fold e. rewrite <- Hs1, <- Hret.
        reflexivity.
      * intros [|i] c Hi.
        -- injection Hi as <-. cbn [take lookup list_lookup].
           change (calls_of []) with (@nil (Z * Ptr * PVR_ERROR)).
           change (failures []) with (@nil Z).
           rewrite app_nil_r, decide_False by exact Hnot. reflexivity.
        -- change ((client :: clients) !! Datatypes.S i) with (clients !! i) in Hi.
           change ((?e0 :: evs) !! Datatypes.S i) with (evs !! i).
           change (take (Datatypes.S i) (?e0 :: evs)) with (e0 :: take i evs).
           rewrite Hcons.
           change ((GetID (h client), client, e) :: calls_of (take i evs))
             with ([(GetID (h client), client, e)] ++ calls_of (take i evs)).
           rewrite failures_app, app_assoc, <- Hf1, foldl_app.
           cbn [foldl fst snd]. rewrite <- Hs1. by apply Hpos.
Qed.

Lemma elem_of_failures (calls : list (Z * Ptr * PVR_ERROR)) (id : Z) :
  id ∈ failures calls ↔ ∃ c, c ∈ calls ∧ c.1.1 = id ∧ is_failure c.2 = true.
Proof.
  unfold failures. rewrite list_elem_of_fmap. split.
  - intros ([id' p] & -> & ([[id'' p'] e] & [= <- <-] & Hin)%list_elem_of_fmap).
    apply list_elem_of_filter in Hin as [He Hin]. eauto.
  - intros ([[id' p] e] & Hin & Hid & He). simpl in Hid, He. subst id'.
    exists (id, p). split; [reflexivity |]. apply list_elem_of_fmap.
    exists (id, p, e). split; [reflexivity |]. by apply list_elem_of_filter.
Qed.

(** The turns of a pass of [ForClients] over a non-empty request. *)
Lemma ForClients_turns (strFunctionName : string) (clients : list Ptr)
    (function : PVRClientFunction S) (s : S) (w : World) :
  clients ≠ [] ->
  let r := ForClients strFunctionName clients function s w in
  let evs := events_since w (world r) in
  List.length evs = List.length clients ∧
  calls_of evs = returns function s (calls_of evs).*1 ∧
  ∀ (i : nat) (client : Ptr),
    clients !! i = Some client ->
    (GetID (heap w client) ∉ ForClients_scan w clients ++ failures (calls_of (take i evs)) ->
     ∃ result, evs !! i = Some (Invoke_function (GetID (heap w client)) client result)) ∧
    (GetID (heap w client) ∈ ForClients_scan w clients ++ failures (calls_of (take i evs)) ->
     evs !! i = Some (client_warning strFunctionName (heap w client))).
Proof.
  intros Hne. unfold ForClients. destruct clients as [|c0 clients]; [done |].
  match goal with |- context [foldl ?f ?st0 ?l] =>
    destruct (ForClients_loop_turns strFunctionName function (heap w) l st0 eq_refl)
      as (evs & Htr & Hlen & Hret & Hpos)
  end.
  cbn [world closure failedClients] in Htr, Hret, Hpos. cbv zeta.
  rewrite (events_since_app _ _ _ Htr).
  split; [exact Hlen | split; [exact Hret |]].
  intros i client Hi. rewrite (Hpos i client Hi).
  split; intros Hin.
  - rewrite decide_False by exact Hin. eauto.
  - by rewrite decide_True by exact Hin.
Qed.

(** C2.  In a pass of [ForCreatedClients] and in a pass of [ForClients], the
    calls recorded are calls of the operation, and their results are what
    the operation returned: [ForCreatedClients] calls it on the callable
    clients in turn, and [ForClients] leaves no requested client out
    unless its id is on the failed list it returns.  The status returned is
    the last failure among these results, and no error when none of them is
    a failure, where a failure is a result other than no error and not
    implemented; the failed list returned is the list the calls started
    from followed by the client ids of the calls that failed, in call order.
    So a call that returns not implemented changes neither, and a call that
    returns another error puts its client id on the failed list and its
    error in the status until a later call fails. *)
Theorem fan_out_aggregates_failures (strFunctionName : string) (clients : list Ptr)
    (function : PVRClientFunction S) (s : S) (w : World) :
  let r1 := ForCreatedClients strFunctionName function s w in
  let calls1 := calls_of (events_since w (world r1)) in
  let r2 := ForClients strFunctionName clients function s w in
  let calls2 := calls_of (events_since w (world r2)) in
  let harmless (c : Z * Ptr * PVR_ERROR) :=
    c.2 = PVR_ERROR_NO_ERROR ∨ c.2 = PVR_ERROR_NOT_IMPLEMENTED in
  let id (client : Ptr) := GetID (heap w client) in
  (calls1 = returns function s (entries (GetCallableClients w).1.1) ∧
   lastError r1 = last_failure calls1 ∧
   failedClients r1 = initial_failed w [] ++ failures calls1 ∧
   (lastError r1 = PVR_ERROR_NO_ERROR ↔ Forall harmless calls1)) ∧
  (calls2 = returns function s calls2.*1 ∧
   (∀ client, client ∈ clients ->
      id client ∈ failedClients r2 ∨ ∃ result, (id client, client, result) ∈ calls2) ∧
   lastError r2 = last_failure calls2 ∧
   failedClients r2 = initial_failed w clients ++ failures calls2 ∧
   (lastError r2 = PVR_ERROR_NO_ERROR ↔ Forall harmless calls2)).
Proof.
  intros r1 calls1 r2 calls2 harmless id.
  assert (Hharmless : ∀ calls,
            Forall (fun c : Z * Ptr * PVR_ERROR => is_failure c.2 = false) calls ↔
            Forall harmless calls).
  { intros calls. apply Forall_proper; [| reflexivity]. intros [[k p] e]. subst harmless.
    simpl. apply is_failure_false. }
  assert (Hret1 : calls1 = returns function s (entries (GetCallableClients w).1.1))
    by apply ForCreatedClients_returns.
  assert (H1 : lastError r1 = last_failure calls1 ∧
               failedClients r1 = initial_failed w [] ++ failures calls1).
  { destruct (ForCreatedClients_run strFunctionName function s w) as (_ & He & Hf). auto. }
  assert (H2 : calls2 = returns function s calls2.*1 ∧
               (∀ client, client ∈ clients ->
                  id client ∈ failedClients r2 ∨
                  ∃ result, (id client, client, result) ∈ calls2) ∧
               lastError r2 = last_failure calls2 ∧
               failedClients r2 = initial_failed w clients ++ failures calls2).
  { subst r2 calls2. destruct clients as [|c0 clients].
    - split; [| split; [| exact H1]].
      + change (ForClients strFunctionName [] function s w) with r1. fold calls1.
        rewrite Hret1 at 1. by rewrite Hret1, returns_fst.
      + intros client Hin. by apply elem_of_nil in Hin.
    - destruct (ForClients_run strFunctionName (c0 :: clients) function s w ltac:(done))
        as (He & Hf & Hall).
      destruct (ForClients_turns strFunctionName (c0 :: clients) function s w ltac:(done))
        as (_ & Hret & _).
      split; [exact Hret | split; [| auto]].
      intros client Hin. apply list_elem_of_lookup in Hin as [i Hi].
      destruct (Forall2_lookup_l _ _ _ _ _ Hall Hi) as (e & He' & Hcase).
      apply list_elem_of_lookup_2 in He'.
      destruct Hcase as [[_ Hfailed] | (res & -> & _)]; [by left | right].
      exists res. by apply elem_of_calls_of. }
  destruct H1 as [He1 Hf1], H2 as (Hret2 & Hlive & He2 & Hf2).
  repeat split; auto.
  - rewrite He1, last_failure_no_error. apply Hharmless.
  - rewrite He1, last_failure_no_error. apply Hharmless.
  - rewrite He2, last_failure_no_error. apply Hharmless.
  - rewrite He2, last_failure_no_error. apply Hharmless.
Qed.

(** C3 (amended).  A pass of [ForCreatedClients] calls the operation once
    on each entry of the map of callable clients, in map order, and these
    entries have distinct client ids.  A pass of [ForClients] over a
    non-empty request takes the requested clients in request order and
    emits one event for each: the call of the operation on the client when,
    at its turn, its client id is neither on the failed list of the scan nor
    the id of an earlier call of the pass that failed, and else the
    warning.  So a requested client is called whatever the calls under
    other client ids returned; only the failed call of a client with the
    same id (an earlier listing of the same client, or another client that
    carries its id) keeps it from being called.  Over a request that names
    no client id twice the calls are the requested clients whose id the scan
    did not fail, once each and in request order, whatever the operation
    returns; over any request every requested client id that the scan did
    not fail is called at least once. *)
Theorem fan_out_calls_targets_in_order (strFunctionName : string) (clients : list Ptr)
    (function : PVRClientFunction S) (s : S) (w : World) :
  let r1 := ForCreatedClients strFunctionName function s w in
  let calls1 := calls_of (events_since w (world r1)) in
  let r2 := ForClients strFunctionName clients function s w in
  let evs2 := events_since w (world r2) in
  let calls2 := calls_of evs2 in
  let id (client : Ptr) := GetID (heap w client) in
  let failed_at (i : nat) :=
    ForClients_scan w clients ++ failures (calls_of (take i evs2)) in
  (calls1.*1 = entries (GetCallableClients w).1.1 ∧ NoDup calls1.*1.*1) ∧
  (clients ≠ [] -> NoDup (id <$> clients) ->
   calls2.*1 =
     (fun client => (id client, client)) <$>
       filter (fun client => id client ∉ ForClients_scan w clients) clients ∧
   NoDup calls2.*1.*1) ∧
  (clients ≠ [] ->
   ∀ client, client ∈ clients -> id client ∉ ForClients_scan w clients ->
             id client ∈ calls2.*1.*1) ∧
  (clients ≠ [] ->
   List.length evs2 = List.length clients ∧
   ∀ (i : nat) (client : Ptr),
     clients !! i = Some client ->
     (id client ∉ failed_at i ->
      ∃ result, evs2 !! i = Some (Invoke_function (id client) client result)) ∧
     (id client ∈ failed_at i ->
      evs2 !! i = Some (client_warning strFunctionName (heap w client)))) ∧
  (clients ≠ [] ->
   ∀ (i : nat) (client : Ptr),
     clients !! i = Some client ->
     id client ∉ ForClients_scan w clients ->
     (∀ c, c ∈ calls_of (take i evs2) -> c.1.1 = id client -> is_failure c.2 = false) ->
     ∃ result, evs2 !! i = Some (Invoke_function (id client) client result)).
Proof.
  intros r1 calls1 r2 evs2 calls2 id failed_at. split; [| split; [| split; [| split]]].
  - destruct (ForCreatedClients_run strFunctionName function s w) as (Hc & _).
    fold r1 calls1 in Hc. rewrite Hc. split; [reflexivity | apply NoDup_fst_entries].
  - intros Hne Hnd. subst r2 evs2 calls2. unfold ForClients.
    destruct clients as [|c0 clients]; [done |].
    match goal with |- context [foldl ?f ?st0 ?l] =>
      pose proof (ForClients_loop_NoDup strFunctionName function (heap w) l st0 eq_refl Hnd)
        as Hcalls
    end.
    cbn [world failedClients] in Hcalls. cbv zeta in Hcalls. rewrite Hcalls.
    split; [reflexivity |].
    rewrite <- list_fmap_compose.
    apply (NoDup_fmap_2_strong (fun client => id client)).
    + intros x y Hx Hy Hxy.
      apply list_elem_of_filter in Hx as [_ Hx], Hy as [_ Hy].
      apply list_elem_of_lookup in Hx as [i Hi], Hy as [j Hj].
      assert (Hij : i = j).
      { eapply NoDup_lookup; [exact Hnd | |]; rewrite list_lookup_fmap.
        - by rewrite Hi.
        - rewrite Hj. simpl. by rewrite <- Hxy. }
      subst j. congruence.
    + apply NoDup_filter. eapply NoDup_fmap_1. exact Hnd.
  - intros Hne client Hin Hnot.
    destruct (ForClients_run strFunctionName clients function s w Hne) as (_ & Hf & Hall).
    fold r2 in Hf, Hall.
    apply list_elem_of_lookup in Hin as [i Hi].
    destruct (Forall2_lookup_l _ _ _ _ _ Hall Hi) as (e & He & Hcase).
    apply list_elem_of_lookup_2 in He.
    destruct Hcase as [[_ Hfailed] | (res & -> & _)].
    + rewrite Hf, elem_of_app in Hfailed. destruct Hfailed as [? | Hfailed]; [done |].
      by apply failures_subseteq.
    + apply elem_of_calls_of in He.
      apply (list_elem_of_fmap_2 fst), (list_elem_of_fmap_2 fst) in He. exact He.
  - intros Hne.
    destruct (ForClients_turns strFunctionName clients function s w Hne) as (Hlen & _ & Hpos).
    split; [exact Hlen | exact Hpos].
  - intros Hne i client Hi Hscan Hsame.
    destruct (ForClients_turns strFunctionName clients function s w Hne) as (_ & _ & Hpos).
    apply (Hpos i client Hi). fold evs2.
    rewrite elem_of_app. intros [Hin | Hin]; [by apply Hscan |].
    apply elem_of_failures in Hin as (c & Hc & Hid & Hfail).
    rewrite (Hsame c Hc Hid) in Hfail. discriminate.
Qed.

(** C4 (amended).  In a pass of [ForClients] over a non-empty request, an
    entry of the client map that is ready to use and not ignored, and whose
    key is the client id of no requested client, is not called, and its key
    is on the failed list returned.  The pass emits one event for each
    requested client, the call or the warning of that client, and nothing
    else: no log line is written for an entry that is not requested.  The
    status returned is the last failure among the results the operation
    returned to the calls, so an entry that is not called has no part in it.
    The operation is called only on requested clients, and under a client
    id that is a key of the map only if the entry under that key is ready
    to use and not ignored; a requested client whose client id is the key of
    an entry that is not ready to use, or that is ignored, is not called
    and gets the warning, and its id is on the failed list returned. *)
Theorem ForClients_requested_subset (strFunctionName : string) (clients : list Ptr)
    (function : PVRClientFunction S) (s : S) (w : World) :
  clients ≠ [] ->
  let r := ForClients strFunctionName clients function s w in
  let evs := events_since w (world r) in
  let calls := calls_of evs in
  let id (client : Ptr) := GetID (heap w client) in
  (∀ k p, m_clientMap w !! k = Some p ->
          ReadyToUse (heap w p) = true -> IgnoreClient (heap w p) = false ->
          (∀ client, client ∈ clients -> id client ≠ k) ->
          k ∈ failedClients r ∧ (k ∉ calls.*1.*1)) ∧
  Forall2 (fun client e =>
             e = client_warning strFunctionName (heap w client) ∨
             ∃ result, e = Invoke_function (id client) client result)
          clients evs ∧
  (calls = returns function s calls.*1 ∧ lastError r = last_failure calls) ∧
  (∀ k client result, (k, client, result) ∈ calls ->
     client ∈ clients ∧ k = id client ∧
     (∀ p, m_clientMap w !! k = Some p ->
           ReadyToUse (heap w p) = true ∧ IgnoreClient (heap w p) = false)) ∧
  (∀ (i : nat) (client : Ptr) (p : Ptr),
     clients !! i = Some client ->
     m_clientMap w !! id client = Some p ->
     ReadyToUse (heap w p) = false ∨ IgnoreClient (heap w p) = true ->
     evs !! i = Some (client_warning strFunctionName (heap w client)) ∧
     (id client ∉ calls.*1.*1) ∧ id client ∈ failedClients r).
Proof.
  intros Hne r evs calls id.
  destruct (ForClients_run strFunctionName clients function s w Hne) as (He & Hf & Hall).
  destruct (ForClients_turns strFunctionName clients function s w Hne) as (_ & Hret & Hpos).
  fold r evs calls in He, Hf, Hall, Hret, Hpos.
  assert (Hcalls : ∀ k client result, (k, client, result) ∈ calls ->
            client ∈ clients ∧ k = id client ∧ k ∉ ForClients_scan w clients).
  { intros k client result Hin. apply elem_of_calls_of in Hin.
    apply list_elem_of_lookup in Hin as [i Hi].
    destruct (Forall2_lookup_r _ _ _ _ _ Hall Hi) as (c & Hc & Hcase).
    apply list_elem_of_lookup_2 in Hc.
    destruct Hcase as [[Hw _] | (res & Heq & Hn)].
    - exfalso. unfold client_warning in Hw. repeat case_match; discriminate.
    - inversion Heq; subst. auto. }
  assert (Hscanned : ∀ k, k ∈ ForClients_scan w clients ->
            k ∈ failedClients r ∧ k ∉ calls.*1.*1).
  { intros k Hk. split; [rewrite Hf, elem_of_app; by left |].
    intros Hin. apply list_elem_of_fmap in Hin as ([k' c] & -> & Hin).
    apply list_elem_of_fmap in Hin as ([[k'' c'] res] & [= <- <-] & Hin).
    apply Hcalls in Hin as (_ & _ & Hn). by apply Hn. }
  split; [| split; [| split; [| split]]].
  - intros k p Hk Hready Hignore Hout. apply Hscanned, elem_of_ForClients_scan.
    exists p. split; [exact Hk |]. intros (_ & _ & client & Hin & Hid).
    simpl in Hid. by apply (Hout client Hin).
  - eapply Forall2_impl; [exact Hall |]. simpl. intros c e [[-> _] | (res & -> & _)]; eauto.
  - split; [exact Hret | exact He].
  - intros k client result Hin. destruct (Hcalls _ _ _ Hin) as (Hc & Hk & Hn).
    split; [exact Hc | split; [exact Hk |]].
    intros p0 Hp. destruct (shall_be_called w clients (k, p0)) eqn:Hs.
    + apply shall_be_called_allowed in Hs as (Hr & Hi & _). auto.
    + exfalso. apply Hn, elem_of_ForClients_scan. exists p0. split; [exact Hp |].
      rewrite <- shall_be_called_allowed. congruence.
  - intros i client p Hi Hp Hnot.
    assert (Hscan : id client ∈ ForClients_scan w clients).
    { apply elem_of_ForClients_scan. exists p. split; [exact Hp |].
      intros (Hr & Hig & _). simpl in Hr, Hig. destruct Hnot; congruence. }
    destruct (Hscanned _ Hscan) as [Hfailed Hnocall].
    split; [| split; [exact Hnocall | exact Hfailed]].
    apply (Hpos i client Hi). rewrite elem_of_app. by left.
Qed.

End DispatchProperties.

(** ** Reconciliation *)

Section ReconciliationProperties.
Context {P : Platform}.
Context {CPVRClient : Type} {client_class : CPVRClientClass CPVRClient}.
Context {CAddonMgr : Type} {addon_mgr_class : CAddonMgrClass CAddonMgr}.

Abbreviation World := (@World CPVRClient CAddonMgr).

Lemma unchanged_or_action_trans (a b c : World * Actions) :
  unchanged_or_action a b -> unchanged_or_action b c -> unchanged_or_action a c.
Proof. unfold unchanged_or_action. intros Hab [-> | Hc]; auto. Qed.

Lemma foldM_unchanged_or_action {B : Type}
    (f : World * Actions -> B -> option (World * Actions)) (l : list B) :
  (∀ acc b acc', f acc b = Some acc' -> unchanged_or_action acc acc') ->
  ∀ acc acc', foldM f acc l = Some acc' -> unchanged_or_action acc acc'.
Proof.
  intros Hstep. induction l as [|b l IH]; intros acc acc'; simpl.
  - intros [= ->]. by left.
  - destruct (f acc b) as [acc1|] eqn:Hf; simpl; [| discriminate].
    intros Hrest. eapply unchanged_or_action_trans; eauto.
Qed.

Lemma any_action_push_create (e : option Ptr * Z) (a : Actions) :
  any_action (push_create e a) = true.
Proof.
  unfold any_action, push_create. simpl.
  rewrite bool_decide_eq_false_2; [reflexivity |]. by destruct (addonsToCreate a).
Qed.

Lemma any_action_push_recreate (e : AddonInfo * N) (a : Actions) :
  any_action (push_recreate e a) = true.
Proof.
  unfold any_action, push_recreate. simpl.
  rewrite (bool_decide_eq_false_2 (addonsToReCreate a ++ [e] = []));
    [by rewrite orb_true_r |]. by destruct (addonsToReCreate a).
Qed.

Lemma any_action_push_destroy (e : AddonInfo * N) (a : Actions) :
  any_action (push_destroy e a) = true.
Proof.
  unfold any_action, push_destroy. simpl.
  rewrite (bool_decide_eq_false_2 (addonsToDestroy a ++ [e] = []));
    [by rewrite orb_true_r |]. by destruct (addonsToDestroy a).
Qed.

(** An instance is passed over, or it adds to a list. *)
Lemma classify_instance_unchanged_or_action (addon : AddonInfo) (acc : World * Actions)
    (instanceInfo : N * bool) (acc' : World * Actions) :
  classify_instance addon acc instanceInfo = Some acc' -> unchanged_or_action acc acc'.
Proof.
  unfold classify_instance, unchanged_or_action. destruct acc as [w a].
  repeat case_match; simpl; intros Hc; simplify_option_eq;
    first [ by left
          | right; simpl;
            repeat case_match;
            auto using any_action_push_create, any_action_push_recreate,
                       any_action_push_destroy ].
Qed.

Lemma classify_unchanged_or_action (changedAddonId : string) (changedInstanceId : N)
    (addonsWithStatus : list (AddonInfo * bool)) (w w' : World) (a : Actions) :
  classify changedAddonId changedInstanceId addonsWithStatus w = Some (w', a) ->
  (w', a) = (w, no_actions) ∨ any_action a = true.
Proof.
  unfold classify. intros Hc.
  eapply (foldM_unchanged_or_action _ _ _ _ _ Hc).
Unshelve.
  intros acc b acc' Hb. eapply foldM_unchanged_or_action; [| exact Hb].
  intros acc0 b0 acc0'. apply classify_instance_unchanged_or_action.
Qed.

(** C8.  When the classification of [UpdateAddons] ends with three empty
    lists, the call returns the state it was given: the client map, the
    clients, the add-on manager and the trace are as before, so the PVR
    manager was neither stopped nor started and no progress was shown. *)
Theorem UpdateAddons_without_actions (changedAddonId : string) (changedInstanceId : N)
    (w w' : World) (a : Actions) :
  classify changedAddonId changedInstanceId
    (map (fun addon => (addon, negb (IsAddonDisabled (AddonInfo_ID addon) (addonMgr w))))
         (GetAddonInfos false (addonMgr w))) w = Some (w', a) ->
  addonsToCreate a = [] -> addonsToReCreate a = [] -> addonsToDestroy a = [] ->
  UpdateAddons changedAddonId changedInstanceId w = Some w.
Proof.
  intros Hc H1 H2 H3. unfold UpdateAddons.
  destruct (bool_decide _); [reflexivity |].
  destruct (negb _); [reflexivity |].
  rewrite Hc. simpl.
  assert (Hnone : any_action a = false).
  { unfold any_action. by rewrite H1, H2, H3. }
  rewrite Hnone.
  apply classify_unchanged_or_action in Hc as [[= -> _] | Hany]; [reflexivity | congruence].
Qed.

(** *** The keys of the client map *)

Lemma StopClient_keys (Q : Z -> Prop) (addonId : string) (instanceId : N) (bRestart : bool)
    (w : World) :
  keys_satisfy Q w -> keys_satisfy Q (StopClient addonId instanceId bRestart w).2.
Proof.
  unfold StopClient, keys_satisfy. intros Hw k p.
  destruct (IsPlaying w); simpl;
    match goal with |- context [GetClient ?w' ?i] => destruct (GetClient w' i) end;
    destruct bRestart; simpl; try apply Hw;
    intros [_ Hk]%lookup_delete_Some; eapply Hw; exact Hk.
Qed.

Lemma foldM_invariant {A B : Type} (I : A -> Prop) (f : A -> B -> option A) (l : list B) :
  (∀ a b a', I a -> f a b = Some a' -> I a') ->
  ∀ a a', I a -> foldM f a l = Some a' -> I a'.
Proof.
  intros Hstep. induction l as [|b l IH]; intros a a' Ha; simpl.
  - by intros [= <-].
  - destruct (f a b) as [a1|] eqn:Hf; simpl; [| discriminate]. eauto.
Qed.

Lemma foldl_invariant {A B : Type} (I : A -> Prop) (f : A -> B -> A) (l : list B) :
  (∀ a b, I a -> I (f a b)) -> ∀ a, I a -> I (foldl f a l).
Proof.
  intros Hstep. induction l as [|b l IH]; intros a Ha; simpl; auto.
Qed.

(** The classification leaves the client map as it is and lists only
    derived ids for creation. *)
Lemma classify_instance_map (addon : AddonInfo) (acc acc' : World * Actions)
    (instanceInfo : N * bool) :
  classify_instance addon acc instanceInfo = Some acc' ->
  m_clientMap acc'.1 = m_clientMap acc.1 ∧
  (creates_derived_ids acc.2 -> creates_derived_ids acc'.2).
Proof.
  unfold classify_instance, creates_derived_ids, make_shared. destruct acc as [w a].
  repeat case_match; simpl; intros Hc; simplify_option_eq;
    (split; [done |]); repeat case_match; simpl; auto;
    intros Ha; apply Forall_app; (split; [exact Ha |]);
    apply Forall_singleton; simpl; eauto.
Qed.

Lemma classify_map (changedAddonId : string) (changedInstanceId : N)
    (addonsWithStatus : list (AddonInfo * bool)) (w w' : World) (a : Actions) :
  classify changedAddonId changedInstanceId addonsWithStatus w = Some (w', a) ->
  m_clientMap w' = m_clientMap w ∧ creates_derived_ids a.
Proof.
  unfold classify. intros Hc.
  apply (foldM_invariant
           (fun acc : World * Actions =>
              m_clientMap acc.1 = m_clientMap w ∧ creates_derived_ids acc.2)) in Hc;
    [exact Hc | | split; [reflexivity | constructor]].
  intros acc b acc' Hacc Hb.
  apply (foldM_invariant
           (fun acc : World * Actions =>
              m_clientMap acc.1 = m_clientMap w ∧ creates_derived_ids acc.2)) in Hb;
    [exact Hb | | exact Hacc].
  intros acc0 b0 acc0' [Hm Hd] Hstep.
  apply classify_instance_map in Hstep as [Hm' Hd']. split; [congruence | auto].
Qed.

Lemma create_step_map (total : N) (acc acc' : N * World) (addon : option Ptr * Z) :
  create_step total acc addon = Some acc' -> m_clientMap acc'.2 = m_clientMap acc.2.
Proof.
  unfold create_step. destruct acc as [i w]. destruct addon as [[client|] id]; simpl;
    [| discriminate].
  destruct (Create id _) as [status obj]. intros [= <-]. simpl.
  by repeat case_match.
Qed.

(** [UpdateAddons] adds to the client map only keys that
    [ClientIdFromAddonIdAndInstanceId] returns: a property of the keys that
    holds of every derived id is kept. *)
Lemma UpdateAddons_keys (Q : Z -> Prop) (changedAddonId : string) (changedInstanceId : N)
    (w w' : World) :
  (∀ addonID instanceID, Q (ClientIdFromAddonIdAndInstanceId addonID instanceID)) ->
  keys_satisfy Q w ->
  UpdateAddons changedAddonId changedInstanceId w = Some w' ->
  keys_satisfy Q w'.
Proof.
  intros HQ Hw. unfold UpdateAddons.
  destruct (bool_decide _); [by intros [= <-] |].
  destruct (negb _); [by intros [= <-] |].
  destruct (classify _ _ _ w) as [[w1 a]|] eqn:Hc; simpl; [| discriminate].
  apply classify_map in Hc as [Hm Hd].
  assert (Hw1 : keys_satisfy Q w1).
  { unfold keys_satisfy. rewrite Hm. exact Hw. }
  destruct (any_action a); [| by intros [= <-]].
  unfold apply_actions.
  destruct (foldM _ _ (addonsToCreate a)) as [[i w2]|] eqn:Hcreate; simpl; [| discriminate].
  apply (foldM_invariant (fun acc : N * World => keys_satisfy Q acc.2)) in Hcreate;
    [| | exact Hw1].
  2: { intros acc b acc' Hacc Hb. apply create_step_map in Hb.
       unfold keys_satisfy in *. rewrite Hb. exact Hacc. }
  simpl in Hcreate.
  destruct (foldl _ (i, w2) (addonsToReCreate a)) as [i3 w3] eqn:Hrecreate.
  assert (Hw3 : keys_satisfy Q w3).
  { change w3 with (i3, w3).2. rewrite <- Hrecreate.
    apply (foldl_invariant (fun acc : N * World => keys_satisfy Q acc.2));
      [| exact Hcreate].
    intros [i0 w0] b Hacc. apply StopClient_keys. exact Hacc. }
  match goal with |- context [foldl destroy_step ?w0 ?l] =>
    assert (Hw4 : keys_satisfy Q (foldl destroy_step w0 l))
  end.
  { apply foldl_invariant; [| exact Hw3].
    intros w0 b Hacc. by apply StopClient_keys. }
  match goal with |- context [foldM merge_step ?w0 ?l] =>
    destruct (foldM merge_step w0 l) as [w5|] eqn:Hmerge; simpl; [| discriminate];
    assert (Hw5 : keys_satisfy Q w5)
  end.
  { revert Hmerge Hw4 Hd. unfold creates_derived_ids.
    generalize (addonsToCreate a).
    match goal with |- ∀ l, foldM merge_step ?w0 l = _ -> _ => generalize w0 end.
    intros w0 l. revert w0. induction l as [|[c id] l IH]; intros w0; simpl.
    - by intros [= <-].
    - destruct c as [client|]; simpl; [| discriminate].
      intros Hrest Hw0 [(ad & inst & Hid) Hl]%Forall_cons. simpl in Hid.
      eapply IH; [exact Hrest | | exact Hl].
      intros k p. simpl. rewrite lookup_map_insert.
      destruct (decide (id = k)) as [<- | _]; [intros _; rewrite Hid; apply HQ |].
      apply Hw0. }
  intros [= <-]. exact Hw5.
Qed.

(** X1.  Every key of the client map after [UpdateAddons] was a key before
    or is a value of the client id derivation. *)
Theorem UpdateAddons_adds_derived_ids (changedAddonId : string) (changedInstanceId : N)
    (w w' : World) :
  UpdateAddons changedAddonId changedInstanceId w = Some w' ->
  ∀ (k : Z) (p : Ptr),
    m_clientMap w' !! k = Some p ->
    is_Some (m_clientMap w !! k) ∨
    ∃ addonID instanceID, k = ClientIdFromAddonIdAndInstanceId addonID instanceID.
Proof.
  intros Hrun.
  apply (UpdateAddons_keys
           (fun k => is_Some (m_clientMap w !! k) ∨
                     ∃ addonID instanceID,
                       k = ClientIdFromAddonIdAndInstanceId addonID instanceID)
           changedAddonId changedInstanceId w w'); [| | exact Hrun].
  - intros addonID instanceID. right. eauto.
  - intros k p Hk. left. eauto.
Qed.

End ReconciliationProperties.

(** ** Closed runs on the concrete platform *)

(** The example of the specification: A does not implement the operation, B
    fails it; the status is B's error and the failed list holds B alone. *)
Example fan_out_aggregation_example :
  let r := ForClients (P := kodi_platform) "GetTimers" [0%nat; 1%nat] demo_mixed () demo_w in
  lastError r = PVR_ERROR_SERVER_ERROR ∧ failedClients r = [381956049].
Proof. vm_compute. auto. Qed.

(** C3, witness: both requested clients are called, whatever they return. *)
Lemma fan_out_calls_targets_in_order_witness :
  (calls_of (events_since demo_w
     (world (ForClients (P := kodi_platform) "GetTimers" [0%nat; 1%nat]
               demo_mixed () demo_w)))).*1 =
  [(2025648334, 0%nat); (381956049, 1%nat)].
Proof.
  destruct (fan_out_calls_targets_in_order (P := kodi_platform)
              "GetTimers" [0%nat; 1%nat] demo_mixed () demo_w) as (_ & H & _).
  destruct H as [-> _].
  - discriminate.
  - apply (bool_decide_unpack _). vm_compute. exact I.
  - vm_compute. reflexivity.
Defined.

(** C3, counterexample: the clients at the addresses 0 and 3 are two
    clients, both ready to use and not ignored, that carry the same client
    id, and the map holds a ready entry under it.  Requested together, both
    are called when the call of the first succeeds; when it fails, the
    second is not called and gets the log line instead: whether it is called
    depends on what the client before it returned. *)
Lemma ForClients_skips_client_with_failed_id :
  0%nat ≠ 3%nat ∧
  GetID (heap demo_w_twins 0%nat) = 2025648334 ∧
  GetID (heap demo_w_twins 3%nat) = 2025648334 ∧
  ReadyToUse (heap demo_w_twins 3%nat) = true ∧
  IgnoreClient (heap demo_w_twins 3%nat) = false ∧
  m_clientMap demo_w_twins !! 2025648334 = Some 0%nat ∧
  events_since demo_w_twins
    (world (ForClients (P := kodi_platform) "GetTimers" [0%nat; 3%nat]
              demo_ok () demo_w_twins)) =
  [Invoke_function 2025648334 0%nat PVR_ERROR_NO_ERROR;
   Invoke_function 2025648334 3%nat PVR_ERROR_NO_ERROR] ∧
  events_since demo_w_twins
    (world (ForClients (P := kodi_platform) "GetTimers" [0%nat; 3%nat]
              demo_failing () demo_w_twins)) =
  [Invoke_function 2025648334 0%nat PVR_ERROR_SERVER_ERROR;
   CLog_Log LOGERROR "{}: Not calling add-on '{}' for unexpected reason."
     [arg_string "GetTimers"; arg_string "pvr.hts"]].
Proof. vm_compute. repeat split; congruence. Qed.

(** A request that names the client at address 0 twice.  When its calls
    succeed it is called twice; when its first call fails it is called once
    and skipped once. *)
Example ForClients_calls_client_requested_twice :
  calls_of (events_since demo_w
     (world (ForClients (P := kodi_platform) "GetTimers" [0%nat; 0%nat]
               demo_ok () demo_w))) =
  [(2025648334, 0%nat, PVR_ERROR_NO_ERROR); (2025648334, 0%nat, PVR_ERROR_NO_ERROR)] ∧
  calls_of (events_since demo_w
     (world (ForClients (P := kodi_platform) "GetTimers" [0%nat; 0%nat]
               demo_failing () demo_w))) =
  [(2025648334, 0%nat, PVR_ERROR_SERVER_ERROR)].
Proof. vm_compute. auto. Qed.

(** C4, witness: the request for the client at address 0; the client
    under 381956049 is ready to use, not ignored and not requested. *)
Lemma ForClients_requested_subset_witness :
  let r := ForClients (P := kodi_platform) "GetTimers" [0%nat] demo_ok () demo_w in
  [0%nat] ≠ ([] : list Ptr) ∧
  381956049 ∈ failedClients r ∧
  (381956049 ∉ (calls_of (events_since demo_w (world r))).*1.*1) ∧
  lastError r = last_failure (calls_of (events_since demo_w (world r))).
Proof.
  pose proof (ForClients_requested_subset (P := kodi_platform)
                "GetTimers" [0%nat] demo_ok () demo_w ltac:(discriminate))
    as (Hout & _ & (_ & Herr) & _).
  destruct (Hout 381956049 1%nat) as [Hfailed Hnot].
  - vm_compute. reflexivity.
  - reflexivity.
  - reflexivity.
  - intros client Hin. apply list_elem_of_singleton in Hin as ->. vm_compute. discriminate.
  - split; [discriminate | split; [exact Hfailed | split; [exact Hnot | exact Herr]]].
Defined.

(** C4, counterexample: the client registered under 381956049 is ready to
    use, not ignored and not requested; the pass puts its id on the failed
    list it returns and writes no log line for it. *)
Lemma ForClients_fails_clients_outside_request :
  let r := ForClients (P := kodi_platform) "GetTimers" [0%nat] demo_ok () demo_w in
  m_clientMap demo_w !! 381956049 = Some 1%nat ∧
  ReadyToUse (heap demo_w 1%nat) = true ∧
  IgnoreClient (heap demo_w 1%nat) = false ∧
  GetID (heap demo_w 0%nat) ≠ 381956049 ∧
  failedClients r = [381956049] ∧
  events_since demo_w (world r) = [Invoke_function 2025648334 0%nat PVR_ERROR_NO_ERROR].
Proof. vm_compute. repeat split; congruence. Qed.

(** A requested client that is not in the map is called although it is not
    ready to use. *)
Example ForClients_calls_unregistered_client :
  let r := ForClients (P := kodi_platform) "GetTimers" [5%nat] demo_ok () demo_w in
  ReadyToUse (heap demo_w 5%nat) = false ∧
  m_clientMap demo_w !! GetID (heap demo_w 5%nat) = None ∧
  events_since demo_w (world r) = [Invoke_function 1442559222 5%nat PVR_ERROR_NO_ERROR].
Proof. vm_compute. auto. Qed.

Lemma demo_w_ids_valid : registry_ids_valid (P := kodi_platform) demo_w.
Proof.
  intros k p Hk.
  assert (Hall : map_Forall (fun (k : Z) (_ : Ptr) => -2 < k ∧ k ≠ -1) (m_clientMap demo_w)).
  { apply (bool_decide_unpack _). vm_compute. exact I. }
  exact (Hall k p Hk).
Defined.

(** X18, witness: stopping the registered client of pvr.hts without restart
    returns true. *)
Lemma StopClient_registered_witness :
  (StopClient (P := kodi_platform) "pvr.hts" 1 false demo_w).1 = true.
Proof.
  apply (StopClient_registered (P := kodi_platform) "pvr.hts" 1 false demo_w demo_w_ids_valid).
  exists 2025648334, 0%nat. vm_compute. auto.
Defined.

(** C6.  The add-on id pvr.demo3863933971 has the derived client id
    [INT_MIN]: [UpdateAddons] creates its client and registers it under
    that key.  [GetClientId] finds the client, but [GetClient] refuses the
    key, which is not above [PVR_INVALID_CLIENT_ID]; so [StopClient]
    returns false for a registered client, with and without restart, and
    leaves it in the map, neither recreated nor destroyed. *)
Theorem StopClient_misses_client_under_INT_MIN :
  ∃ w : demo_world,
    UpdateAddons (P := kodi_platform) EmptyString 0 demo_w_int_min = Some w ∧
    m_clientMap w = {[ INT_MIN := 6%nat ]} ∧
    ID (heap w 6%nat) = "pvr.demo3863933971"%string ∧
    InstanceId (heap w 6%nat) = 1%N ∧
    ReadyToUse (heap w 6%nat) = true ∧
    registered w "pvr.demo3863933971" 1 ∧
    GetClientId w "pvr.demo3863933971" 1 = INT_MIN ∧
    GetClient (P := kodi_platform) w INT_MIN = None ∧
    ∀ bRestart : bool,
      StopClient (P := kodi_platform) "pvr.demo3863933971" 1 bRestart w = (false, w).
Proof.
  eexists. split; [vm_compute; reflexivity |].
  split; [vm_compute; reflexivity |].
  repeat (split; [vm_compute; reflexivity |]).
  split; [exists INT_MIN, 6%nat; vm_compute; auto |].
  repeat (split; [vm_compute; reflexivity |]).
  intros []; vm_compute; reflexivity.
Qed.

(** C9 on a call that returns false: no client of pvr.unknown is
    registered, playback is active, and the message is sent. *)
Example StopClient_stops_playback_unregistered :
  let r := StopClient (P := kodi_platform) "pvr.unknown" 1 false demo_w in
  r.1 = false ∧ trace r.2 = [SendMsg_TMSG_MEDIA_STOP].
Proof. vm_compute. auto. Qed.

(** C7, witness: the first server-unreachable report of a client whose
    previous state is unknown is logged without notifying the user. *)
Lemma ConnectionStateChange_notification_witness :
  trace (ConnectionStateChange (P := kodi_platform) (Some 0%nat) EmptyString
           PVR_CONNECTION_STATE_SERVER_UNREACHABLE EmptyString demo_w) =
  [AddJob_CPVREventLogJob false true "pvr.hts" "35505" "icon.png"].
Proof.
  destruct (ConnectionStateChange_notification (P := kodi_platform) 0%nat EmptyString
              PVR_CONNECTION_STATE_SERVER_UNREACHABLE EmptyString demo_w) as (e & Htr & He & _).
  etransitivity; [exact Htr |].
  rewrite (He eq_refl (or_introl eq_refl)). reflexivity.
Defined.

(** C8, witness: the only add-on is disabled and has no client; nothing is
    to do and the state is returned as it was. *)
Lemma UpdateAddons_without_actions_witness :
  UpdateAddons (P := kodi_platform) EmptyString 0 demo_w_disabled = Some demo_w_disabled.
Proof.
  apply (UpdateAddons_without_actions (P := kodi_platform) EmptyString 0
           demo_w_disabled demo_w_disabled no_actions); reflexivity.
Defined.

(** A run of [UpdateAddons] that creates a client: the add-on is enabled and
    has none yet. *)
Example UpdateAddons_creates_client :
  ∃ w, UpdateAddons (P := kodi_platform) EmptyString 0 demo_w_fresh = Some w ∧
       m_clientMap w = {[ 2025648334 := 6%nat ]} ∧
       ReadyToUse (heap w 6%nat) = true ∧
       trace w = [PVRManager_Stop; CPVRGUIProgressHandler_new "19239";
                  UpdateProgress "pvr.hts" 0 1; CPVRGUIProgressHandler_reset;
                  PVRManager_Start].
Proof. eexists. split; [vm_compute; reflexivity |]. vm_compute. auto. Qed.

(** C10, witness: two clients are registered and ready. *)
Lemma HasCreatedClients_iff_amount_positive_witness :
  HasCreatedClients demo_w = true ↔ 0 < CreatedClientAmount demo_w.
Proof.
  apply (HasCreatedClients_iff_amount_positive demo_w). vm_compute. reflexivity.
Defined.

(** X1, witness: a run of [UpdateAddons] that adds a key, the one the
    derivation gives for the first instance of pvr.hts. *)
Lemma UpdateAddons_adds_derived_ids_witness :
  ∃ w, UpdateAddons (P := kodi_platform) EmptyString 0 demo_w_fresh = Some w ∧
       ∀ (k : Z) (p : Ptr),
         m_clientMap w !! k = Some p ->
         is_Some (m_clientMap demo_w_fresh !! k) ∨
         ∃ addonID instanceID,
           k = ClientIdFromAddonIdAndInstanceId (P := kodi_platform) addonID instanceID.
Proof.
  destruct (UpdateAddons (P := kodi_platform) EmptyString 0 demo_w_fresh) as [w|] eqn:Hrun.
  - exists w. split; [reflexivity |].
    exact (UpdateAddons_adds_derived_ids (P := kodi_platform) EmptyString 0 demo_w_fresh w Hrun).
  - exfalso. vm_compute in Hrun. discriminate.
Defined.

(** X2, witness: the id derived for pvr.hts. *)
Lemma ClientIdFromHash_nonneg_witness :
  0 ≤ ClientIdFromHash (hasher (Platform := kodi_platform) "pvr.hts") ≤ INT_MAX.
Proof.
  apply ClientIdFromHash_nonneg. vm_compute. discriminate.
Defined.

(** ** Further properties of the client map queries *)

#[global] Instance key_le_transitive {V : Type} : Transitive (@key_le V).
Proof. unfold key_le. intros x y z ? ?. lia. Qed.

#[global] Instance key_le_total {V : Type} : Total (@key_le V).
Proof. unfold key_le. intros x y. lia. Qed.

Lemma entries_sorted {V : Type} (m : gmap Z V) : StronglySorted key_le (entries m).
Proof. apply StronglySorted_merge_sort; apply _. Qed.

(** The first match of a search through a list sorted by key has the least
    key among the matches. *)
Lemma find_sorted_least {V : Type} (f : Z * V -> bool) (l : list (Z * V)) (x : Z * V) :
  StronglySorted key_le l -> find f l = Some x ->
  ∀ y, y ∈ l -> f y = true -> x.1 ≤ y.1.
Proof.
  induction 1 as [|a l Hs IH Hall]; simpl; [discriminate |].
  destruct (f a) eqn:Hfa.
  - intros [= <-] y [-> | Hy]%elem_of_cons _; [lia |].
    rewrite Forall_forall in Hall. apply (Hall y Hy).
  - intros Hfind y [-> | Hy]%elem_of_cons Hfy; [congruence | by apply IH].
Qed.

Section QueryProperties.
Context {P : Platform}.
Context {CPVRClient : Type} {client_class : CPVRClientClass CPVRClient}.
Context {CAddonMgr : Type} {addon_mgr_class : CAddonMgrClass CAddonMgr}.

Abbreviation World := (@World CPVRClient CAddonMgr).

Lemma GetClient_valid_key (w : World) (k : Z) (p : Ptr) :
  registry_ids_valid w -> m_clientMap w !! k = Some p -> GetClient w k = Some p.
Proof.
  intros Hvalid Hk. unfold GetClient. destruct (Hvalid k p Hk) as [Hgt _].
  by rewrite bool_decide_eq_false_2 by lia.
Qed.

Lemma GetClient_Some (w : World) (k : Z) (p : Ptr) :
  GetClient w k = Some p -> m_clientMap w !! k = Some p ∧ PVR_INVALID_CLIENT_ID < k.
Proof.
  unfold GetClient. case_bool_decide; [discriminate |]. intros Hk. split; [exact Hk | lia].
Qed.

(** X3.  Over a map whose keys are valid client ids, [GetClientId] returns
    -1 exactly when no client of the add-on instance is registered;
    otherwise [GetClient] on the id it returns finds a client of that
    add-on instance, and on -1 it finds nothing. *)
Theorem GetClientId_GetClient (w : World) (addonId : string) (instanceId : N) :
  registry_ids_valid w ->
  (registered w addonId instanceId ↔ GetClientId w addonId instanceId ≠ -1) ∧
  (registered w addonId instanceId ->
   ∃ p, GetClient w (GetClientId w addonId instanceId) = Some p ∧
        ID (heap w p) = addonId ∧ InstanceId (heap w p) = instanceId) ∧
  (¬ registered w addonId instanceId ->
   GetClient w (GetClientId w addonId instanceId) = None).
Proof.
  intros Hvalid. unfold GetClientId.
  destruct (find_addon_instance w addonId instanceId) as [[k p]|] eqn:Hfind.
  - pose proof (find_addon_instance_Some _ _ _ _ _ Hfind) as (Hk & Hid & Hinst).
    assert (Hreg : registered w addonId instanceId) by (exists k, p; auto).
    destruct (Hvalid k p Hk) as [_ Hne]. simpl.
    split; [tauto | split; [| tauto]].
    intros _. exists p. split; [by apply GetClient_valid_key | auto].
  - pose proof (find_addon_instance_None _ _ _ Hfind) as Hnot.
    split; [tauto | split; [tauto |]]. intros _.
    destruct (GetClient w (-1)) as [p|] eqn:Hg; [| reflexivity].
    apply GetClient_Some in Hg as [Hk _]. destruct (Hvalid _ _ Hk) as [_ Hne]. done.
Qed.

(** X4.  Over a map whose keys are all positive, [IsKnownClient] holds
    exactly of the add-on instances that have a client in the map. *)
Theorem IsKnownClient_registered (w : World) (addonId : string) (instanceId : N) :
  (∀ k p, m_clientMap w !! k = Some p -> 0 < k) ->
  (IsKnownClient w addonId instanceId = true ↔ registered w addonId instanceId).
Proof.
  intros Hpos. unfold IsKnownClient, GetClientId. rewrite bool_decide_eq_true.
  destruct (find_addon_instance w addonId instanceId) as [[k p]|] eqn:Hfind.
  - pose proof (find_addon_instance_Some _ _ _ _ _ Hfind) as (Hk & Hid & Hinst).
    simpl. split; [intros _; exists k, p; auto | intros _; eauto].
  - pose proof (find_addon_instance_None _ _ _ Hfind) as Hnot. split; [lia | tauto].
Qed.

(** X5.  Over a map whose keys are valid client ids, the two overloads of
    [IsCreatedClient] agree: the add-on instance has a created client
    exactly when the client id [GetClientId] gives for it has one. *)
Theorem IsCreatedClient_overloads (w : World) (addonId : string) (instanceId : N) :
  registry_ids_valid w ->
  IsCreatedClient w addonId instanceId =
  IsCreatedClient_id w (GetClientId w addonId instanceId).
Proof.
  intros Hvalid. unfold IsCreatedClient, IsCreatedClient_id, GetCreatedClient, GetClientId.
  destruct (find_addon_instance w addonId instanceId) as [[k p]|] eqn:Hfind; simpl.
  - pose proof (find_addon_instance_Some _ _ _ _ _ Hfind) as (Hk & _).
    by rewrite (GetClient_valid_key w k p Hvalid Hk).
  - destruct (GetClient w (-1)) as [p|] eqn:Hg; [| reflexivity].
    apply GetClient_Some in Hg as [Hk _]. destruct (Hvalid _ _ Hk) as [_ Hne]. done.
Qed.

(** X6.  [GetFirstCreatedClientID] returns -1 when no client in the map is
    ready to use; otherwise it returns the client id of a ready client in
    the map, the one under the least key among the ready ones. *)
Theorem GetFirstCreatedClientID_least (w : World) :
  (HasCreatedClients w = false -> GetFirstCreatedClientID w = -1) ∧
  (HasCreatedClients w = true ->
   ∃ k p, m_clientMap w !! k = Some p ∧ ReadyToUse (heap w p) = true ∧
          GetFirstCreatedClientID w = GetID (heap w p) ∧
          ∀ k' p', m_clientMap w !! k' = Some p' -> ReadyToUse (heap w p') = true -> k ≤ k').
Proof.
  unfold GetFirstCreatedClientID, HasCreatedClients.
  destruct (find _ (entries (m_clientMap w))) as [[k p]|] eqn:Hfind.
  - pose proof (find_some _ _ Hfind) as [Hin Hready].
    apply list_elem_of_In, elem_of_entries in Hin. simpl in Hready.
    split.
    + intros Hnone. exfalso.
      assert (existsb (fun client : Z * Ptr => ReadyToUse (heap w client.2))
                      (entries (m_clientMap w)) = true) as He; [| congruence].
      apply existsb_exists. exists (k, p).
      split; [by apply list_elem_of_In, elem_of_entries | exact Hready].
    + intros _. exists k, p. repeat split; auto.
      intros k' p' Hk' Hr'.
      apply (find_sorted_least _ _ _ (entries_sorted _) Hfind (k', p'));
        [by apply elem_of_entries | exact Hr'].
  - split; [reflexivity |]. intros Hex. exfalso.
    apply existsb_exists in Hex as (x & Hx & Hr).
    pose proof (find_none _ _ Hfind x Hx). simpl in *. congruence.
Qed.

End QueryProperties.

Section MoreQueryProperties.
Context {P : Platform}.
Context {CPVRClient : Type} {client_class : CPVRClientClass CPVRClient}.
Context {control_class : CPVRClientControlClass CPVRClient}.
Context {CAddonMgr : Type} {addon_mgr_class : CAddonMgrClass CAddonMgr}.

Abbreviation World := (@World CPVRClient CAddonMgr).

(** The loop of [GetCreatedClients] from any counter and map. *)
Lemma GetCreatedClients_loop (w : World) (l : list (Z * Ptr)) (n : Z) (clients : gmap Z Ptr) :
  0 ≤ n -> n + Z.of_nat (List.length l) < 2 ^ 31 ->
  let r := foldl (fun (acc : Z * gmap Z Ptr) (client : Z * Ptr) =>
                    if ReadyToUse (heap w client.2)
                    then (static_cast_int (acc.1 + 1),
                          map_insert (GetID (heap w client.2)) client.2 acc.2)
                    else acc) (n, clients) l in
  r.1 = n + Z.of_nat (List.length
                        (filter (fun client : Z * Ptr => ReadyToUse (heap w client.2) = true) l)) ∧
  (∀ id p, clients !! id = Some p -> r.2 !! id = Some p) ∧
  (∀ id p, r.2 !! id = Some p ->
     clients !! id = Some p ∨
     ∃ k, (k, p) ∈ l ∧ ReadyToUse (heap w p) = true ∧ GetID (heap w p) = id) ∧
  (∀ k p, (k, p) ∈ l -> ReadyToUse (heap w p) = true -> is_Some (r.2 !! GetID (heap w p))).
Proof.
  revert n clients. induction l as [|[k0 p0] l IH]; intros n clients Hn Hlen; simpl.
  - rewrite Z.add_0_r. repeat split; auto.
    intros k p Hin. by apply elem_of_nil in Hin.
  - simpl in Hlen. rewrite filter_cons. simpl.
    destruct (ReadyToUse (heap w p0)) eqn:Hr.
    + rewrite decide_True by reflexivity.
      assert (Hcast : static_cast_int (n + 1) = n + 1).
      { apply static_cast_int_id. unfold INT_MIN, INT_MAX. lia. }
      rewrite Hcast.
      destruct (IH (n + 1) (map_insert (GetID (heap w p0)) p0 clients) ltac:(lia) ltac:(lia))
        as (Hc & Hkeep & Horigin & Hcover).
      split; [rewrite Hc; simpl; lia | split; [| split]].
      * intros id p Hid. apply Hkeep. rewrite lookup_map_insert.
        destruct (decide (GetID (heap w p0) = id)) as [<- | _]; [by rewrite Hid | exact Hid].
      * intros id p Hid. apply Horigin in Hid as [Hid | (k & Hin & Hrp & Hgid)].
        -- rewrite lookup_map_insert in Hid.
           destruct (decide (GetID (heap w p0) = id)) as [<- | _]; [| by left].
           destruct (clients !! GetID (heap w p0)) as [p1|] eqn:Hc1; simpl in Hid.
           ++ left. congruence.
           ++ right. exists k0. injection Hid as <-. split; [left | auto].
        -- right. exists k. split; [by right | auto].
      * intros k p [[= -> ->] | Hin]%elem_of_cons Hrp; [| by eapply Hcover].
        destruct (clients !! GetID (heap w p0)) as [p1|] eqn:Hc1.
        -- exists p1. apply Hkeep. rewrite lookup_map_insert, decide_True by reflexivity.
           by rewrite Hc1.
        -- exists p0. apply Hkeep. rewrite lookup_map_insert, decide_True by reflexivity.
           by rewrite Hc1.
    + rewrite decide_False by discriminate.
      destruct (IH n clients Hn ltac:(lia)) as (Hc & Hkeep & Horigin & Hcover).
      split; [exact Hc | split; [exact Hkeep | split]].
      * intros id p Hid. apply Horigin in Hid as [Hid | (k & Hin & Hrest)]; [by left |].
        right. exists k. split; [by right | exact Hrest].
      * intros k p [[= -> ->] | Hin]%elem_of_cons Hrp; [congruence | by eapply Hcover].
Qed.

(** X7.  Over a map with fewer than 2^31 clients, [GetCreatedClients]
    returns the number [CreatedClientAmount] gives.  It leaves the bindings
    of the map it is handed as they are, binds every ready client's own
    client id ([GetID], not its key in the client map), and adds only
    ready clients of the client map, each under its own client id. *)
Theorem GetCreatedClients_spec (clients : gmap Z Ptr) (w : World) :
  Z.of_nat (size (m_clientMap w)) < 2 ^ 31 ->
  let r := GetCreatedClients clients w in
  r.1 = CreatedClientAmount w ∧
  (∀ id p, clients !! id = Some p -> r.2 !! id = Some p) ∧
  (∀ id p, r.2 !! id = Some p ->
     clients !! id = Some p ∨
     ∃ k, m_clientMap w !! k = Some p ∧ ReadyToUse (heap w p) = true ∧
          GetID (heap w p) = id) ∧
  (∀ k p, m_clientMap w !! k = Some p -> ReadyToUse (heap w p) = true ->
          is_Some (r.2 !! GetID (heap w p))).
Proof.
  intros Hsize. rewrite <- length_entries in Hsize.
  destruct (GetCreatedClients_loop w (entries (m_clientMap w)) 0 clients ltac:(lia) ltac:(lia))
    as (Hc & Hkeep & Horigin & Hcover).
  unfold GetCreatedClients. cbv zeta. split; [| split; [exact Hkeep | split]].
  - rewrite Hc. unfold CreatedClientAmount. rewrite static_cast_int_id; [lia |].
    pose proof (length_filter (fun client : Z * Ptr => ReadyToUse (heap w client.2) = true)
                              (entries (m_clientMap w))).
    unfold INT_MIN, INT_MAX. lia.
  - intros id p Hid. apply Horigin in Hid as [Hid | (k & Hin & Hrest)]; [by left |].
    right. exists k. split; [by apply elem_of_entries | exact Hrest].
  - intros k p Hk. apply (Hcover k). by apply elem_of_entries.
Qed.

(** X8.  Over a map with fewer than 2^31 clients and valid client ids as
    keys, [EnabledClientAmount] is the number of keys of the map for which
    [IsEnabledClient] holds; it is positive exactly when [IsEnabledClient]
    holds of some client id. *)
Theorem EnabledClientAmount_IsEnabledClient (w : World) :
  Z.of_nat (size (m_clientMap w)) < 2 ^ 31 ->
  registry_ids_valid w ->
  EnabledClientAmount w =
    Z.of_nat (List.length (filter (fun client : Z * Ptr => IsEnabledClient w client.1 = true)
                                  (entries (m_clientMap w)))) ∧
  (0 < EnabledClientAmount w ↔ ∃ clientId, IsEnabledClient w clientId = true).
Proof.
  intros Hsize Hvalid. rewrite <- length_entries in Hsize.
  assert (Hsame :
    filter (fun client : Z * Ptr =>
              IsAddonDisabled (ID (heap w client.2)) (addonMgr w) = false)
           (entries (m_clientMap w)) =
    filter (fun client : Z * Ptr => IsEnabledClient w client.1 = true)
           (entries (m_clientMap w))).
  { apply filter_ext_elem. intros [k p] Hin%elem_of_entries. simpl.
    unfold IsEnabledClient. rewrite (GetClient_valid_key w k p Hvalid Hin).
    by destruct (IsAddonDisabled _ _). }
  assert (Hamount : EnabledClientAmount w =
    Z.of_nat (List.length (filter (fun client : Z * Ptr => IsEnabledClient w client.1 = true)
                                  (entries (m_clientMap w))))).
  { unfold EnabledClientAmount. rewrite Hsame. apply static_cast_int_id.
    pose proof (length_filter (fun client : Z * Ptr => IsEnabledClient w client.1 = true)
                              (entries (m_clientMap w))).
    unfold INT_MIN, INT_MAX. lia. }
  split; [exact Hamount |]. rewrite Hamount. clear Hsame Hamount.
  set (enabled := filter (fun client : Z * Ptr => IsEnabledClient w client.1 = true)
                         (entries (m_clientMap w))).
  split.
  - intros Hpos.
    destruct enabled as [|[k p] l] eqn:Hf; [simpl in Hpos; lia |].
    assert (Hx : (k, p) ∈ enabled) by (rewrite Hf; left).
    apply list_elem_of_filter in Hx as [Hx _]. eauto.
  - intros (clientId & Hen). unfold IsEnabledClient in Hen.
    destruct (GetClient w clientId) as [p|] eqn:Hg; [| discriminate].
    pose proof (GetClient_Some _ _ _ Hg) as [Hk _].
    assert (Hx : (clientId, p) ∈ enabled).
    { apply list_elem_of_filter. split; [| by apply elem_of_entries].
      simpl. unfold IsEnabledClient. by rewrite Hg. }
    destruct enabled; [by apply elem_of_nil in Hx | simpl; lia].
Qed.

(** A method called on each client of a list of map entries. *)
Lemma call_on_loop (f : CPVRClient -> CPVRClient) (l : list (Z * Ptr)) (w : World) :
  let w' := foldl (fun w client => call_on client.2 f w) w l in
  m_clientMap w' = m_clientMap w ∧ trace w' = trace w ∧ addonMgr w' = addonMgr w ∧
  (∀ p, p ∉ l.*2 -> heap w' p = heap w p) ∧
  (NoDup l.*2 -> ∀ p, p ∈ l.*2 -> heap w' p = f (heap w p)).
Proof.
  revert w. induction l as [|[k0 p0] l IH]; intros w; simpl.
  - repeat split; auto. intros _ p Hp. by apply elem_of_nil in Hp.
  - destruct (IH (call_on p0 f w)) as (Hm & Ht & Ha & Hout & Hin).
    rewrite Hm, Ht, Ha. repeat split; auto.
    + intros p Hp. apply not_elem_of_cons in Hp as [Hne Hp].
      rewrite (Hout p Hp). unfold call_on. simpl. by rewrite fn_lookup_insert_ne.
    + intros [Hfresh Hnd]%NoDup_cons p [-> | Hp]%elem_of_cons.
      * rewrite (Hout p0 Hfresh). unfold call_on. simpl. by rewrite fn_lookup_insert.
      * rewrite (Hin Hnd p Hp). unfold call_on. simpl.
        rewrite fn_lookup_insert_ne; [reflexivity |]. intros ->. by apply Hfresh.
Qed.

(** X9.  [Stop] and [Continue] leave the client map, the add-on manager and
    the trace as they are and touch no client outside the map; when no
    client is in the map under two keys, each client of the map is stopped,
    respectively continued, exactly once. *)
Theorem Stop_Continue_reach_registered (w : World) :
  let registered_ptr (p : Ptr) := ∃ k, m_clientMap w !! k = Some p in
  (m_clientMap (Stop w) = m_clientMap w ∧ trace (Stop w) = trace w ∧
   addonMgr (Stop w) = addonMgr w ∧
   (∀ p, ¬ registered_ptr p -> heap (Stop w) p = heap w p) ∧
   (NoDup (entries (m_clientMap w)).*2 ->
    ∀ p, registered_ptr p -> heap (Stop w) p = CPVRClient_Stop (heap w p))) ∧
  (m_clientMap (Continue w) = m_clientMap w ∧ trace (Continue w) = trace w ∧
   addonMgr (Continue w) = addonMgr w ∧
   (∀ p, ¬ registered_ptr p -> heap (Continue w) p = heap w p) ∧
   (NoDup (entries (m_clientMap w)).*2 ->
    ∀ p, registered_ptr p -> heap (Continue w) p = CPVRClient_Continue (heap w p))).
Proof.
  intros registered_ptr.
  assert (Hreg : ∀ p, p ∈ (entries (m_clientMap w)).*2 ↔ registered_ptr p).
  { intros p. rewrite list_elem_of_fmap. split.
    - intros ([k p'] & -> & Hin%elem_of_entries). by exists k.
    - intros (k & Hk). exists (k, p). split; [reflexivity | by apply elem_of_entries]. }
  split.
  - destruct (call_on_loop CPVRClient_Stop (entries (m_clientMap w)) w)
      as (Hm & Ht & Ha & Hout & Hin).
    unfold Stop. repeat split; auto.
    + intros p Hp. apply Hout. by rewrite Hreg.
    + intros Hnd p Hp. apply (Hin Hnd). by rewrite Hreg.
  - destruct (call_on_loop CPVRClient_Continue (entries (m_clientMap w)) w)
      as (Hm & Ht & Ha & Hout & Hin).
    unfold Continue. repeat split; auto.
    + intros p Hp. apply Hout. by rewrite Hreg.
    + intros Hnd p Hp. apply (Hin Hnd). by rewrite Hreg.
Qed.

End MoreQueryProperties.

(** ** Further properties of the fan-out *)

Section CallableProperties.
Context {P : Platform}.
Context {CPVRClient : Type} {client_class : CPVRClientClass CPVRClient}.
Context {CAddonMgr : Type} {addon_mgr_class : CAddonMgrClass CAddonMgr}.

Abbreviation World := (@World CPVRClient CAddonMgr).

(** The step of [GetCallableClients] as a function of the derived id. *)
Lemma GetCallableClients_flat (w : World) :
  (GetCallableClients w).1 =
  foldl (fun (acc : gmap Z Ptr * list Z) (id : Z) =>
           match GetClient w id with
           | Some client =>
               if ReadyToUse (heap w client) && negb (IgnoreClient (heap w client))
               then (map_insert id client acc.1, acc.2)
               else (acc.1, acc.2 ++ [id])
           | None => (acc.1, acc.2 ++ [id])
           end)
        (∅, []) (enabled_instance_ids w).
Proof.
  unfold GetCallableClients, enabled_instance_ids. simpl.
  generalize (∅ : gmap Z Ptr, [] : list Z).
  induction (GetAddonInfos true (addonMgr w)) as [|addon addons IH]; intros acc;
    [reflexivity |].
  simpl. rewrite foldl_app, <- IH. f_equal.
  generalize acc. induction (GetKnownInstanceIds addon) as [|i l IHl]; intros acc0;
    [reflexivity |].
  simpl. rewrite <- IHl. reflexivity.
Qed.

(** What [GetCallableClients] puts in [clientsReady] and in
    [clientsNotReady]. *)
Lemma GetCallableClients_ready_not_ready (w : World) :
  (∀ id p, (GetCallableClients w).1.1 !! id = Some p ↔ callable w id p) ∧
  (∀ id, id ∈ (GetCallableClients w).1.2 ↔
         id ∈ enabled_instance_ids w ∧ ¬ ∃ p, usable w id p).
Proof.
  rewrite GetCallableClients_flat.
  unfold callable. induction (enabled_instance_ids w) as [|x l IH] using rev_ind.
  - simpl. split.
    + intros id p. rewrite lookup_empty. split; [discriminate |].
      intros [Hin _]. by apply elem_of_nil in Hin.
    + intros id. split; [intros Hin | intros [Hin _]]; by apply elem_of_nil in Hin.
  - rewrite foldl_app. simpl. destruct IH as [IHr IHn].
    set (acc := foldl _ _ l) in *.
    assert (Hcase : ∀ id, id ∈ l ++ [x] ↔ id ∈ l ∨ id = x).
    { intros id. rewrite elem_of_app, list_elem_of_singleton. tauto. }
    destruct (GetClient w x) as [c|] eqn:Hg.
    + destruct (ReadyToUse (heap w c) && negb (IgnoreClient (heap w c))) eqn:Hflags.
      * apply andb_true_iff in Hflags as [Hr Hi]. apply negb_true_iff in Hi.
        simpl. split.
        -- intros id p. rewrite lookup_map_insert, Hcase.
           destruct (decide (x = id)) as [<- | Hne].
           ++ destruct (acc.1 !! x) as [p0|] eqn:Hx; simpl.
              ** apply IHr in Hx as [Hin [Hg0 ?]].
                 assert (p0 = c) as -> by congruence.
                 split; [intros [= <-]; unfold usable; auto |].
                 intros [_ [Hgp _]]. congruence.
              ** split; [intros [= <-]; unfold usable; auto |].
                 intros [_ [Hgp _]]. congruence.
           ++ rewrite IHr. intuition congruence.
        -- intros id. rewrite IHn, Hcase. split; [tauto |].
           intros [[Hin | ->] Hnot]; [tauto |].
           exfalso. apply Hnot. exists c. unfold usable. auto.
      * simpl. split.
        -- intros id p. rewrite IHr, Hcase. split; [tauto |].
           intros [[Hin | ->] Hu]; [tauto |].
           destruct Hu as (Hgp & Hr & Hi).
           assert (p = c) as -> by congruence. rewrite Hr, Hi in Hflags. discriminate.
        -- intros id. rewrite elem_of_app, list_elem_of_singleton, IHn, Hcase.
           split; [| tauto].
           intros [? | ->]; [tauto |]. split; [tauto |].
           intros (p & Hgp & Hr & Hi).
           assert (p = c) as -> by congruence. rewrite Hr, Hi in Hflags. discriminate.
    + simpl. split.
      * intros id p. rewrite IHr, Hcase. split; [tauto |].
        intros [[Hin | ->] Hu]; [tauto |]. destruct Hu as (Hgp & _). congruence.
      * intros id. rewrite elem_of_app, list_elem_of_singleton, IHn, Hcase.
        split; [| tauto].
        intros [? | ->]; [tauto |]. split; [tauto |].
        intros (p & Hgp & _). congruence.
Qed.

(** X10.  [GetCallableClients], started with an empty map, sorts the client
    ids of the known instances of the enabled add-ons: an id is a key of
    [clientsReady], bound to [p], exactly when the client map holds [p]
    under it and [p] is ready to use and not ignored; it is in
    [clientsNotReady] exactly when it is no such id.  So no id is in both,
    and every id looked at is in one of them; the value returned is no
    error exactly when all of them are usable. *)
Theorem GetCallableClients_partition (w : World) :
  let clientsReady := (GetCallableClients w).1.1 in
  let clientsNotReady := (GetCallableClients w).1.2 in
  (∀ id p, clientsReady !! id = Some p ↔ callable w id p) ∧
  (∀ id, id ∈ clientsNotReady ↔ id ∈ enabled_instance_ids w ∧ ¬ ∃ p, usable w id p) ∧
  (∀ id, id ∈ clientsNotReady -> clientsReady !! id = None) ∧
  ((GetCallableClients w).2 = PVR_ERROR_NO_ERROR ↔
   ∀ id, id ∈ enabled_instance_ids w -> ∃ p, usable w id p).
Proof.
  intros clientsReady clientsNotReady.
  destruct (GetCallableClients_ready_not_ready w) as [Hready Hnot].
  fold clientsReady clientsNotReady in Hready, Hnot.
  split; [exact Hready | split; [exact Hnot | split]].
  - intros id Hin. apply Hnot in Hin as [_ Hno].
    destruct (clientsReady !! id) as [p|] eqn:Hid; [| reflexivity].
    exfalso. apply Hno. exists p. by apply Hready.
  - assert (Hret : (GetCallableClients w).2 =
                   if bool_decide (clientsNotReady = [])
                   then PVR_ERROR_NO_ERROR else PVR_ERROR_SERVER_ERROR) by reflexivity.
    rewrite Hret. case_bool_decide as Hempty.
    + split; [intros _ | reflexivity]. intros id Hin.
      destruct (GetClient w id) as [c|] eqn:Hg.
      * destruct (ReadyToUse (heap w c)) eqn:Hr, (IgnoreClient (heap w c)) eqn:Hi;
          try (exfalso; assert (Hx : id ∈ clientsNotReady);
               [apply Hnot; split; [exact Hin |];
                intros (p & Hgp & Hrp & Hip); assert (p = c) as -> by congruence; congruence
               | rewrite Hempty in Hx; by apply elem_of_nil in Hx]).
        exists c. unfold usable. auto.
      * exfalso. assert (Hx : id ∈ clientsNotReady).
        { apply Hnot. split; [exact Hin |]. intros (p & Hgp & _). congruence. }
        rewrite Hempty in Hx. by apply elem_of_nil in Hx.
    + split; [discriminate |]. intros Hall. exfalso. apply Hempty.
      destruct clientsNotReady as [|id l] eqn:Hl; [reflexivity |].
      assert (Hx : id ∈ id :: l) by left.
      apply Hnot in Hx as [Hin Hno]. exfalso. apply Hno, Hall, Hin.
Qed.

End CallableProperties.

Section FanOutMoreProperties.
Context {P : Platform}.
Context {CPVRClient : Type} {client_class : CPVRClientClass CPVRClient}.
Context {CAddonMgr : Type} {addon_mgr_class : CAddonMgrClass CAddonMgr}.
Context {S : Type}.

Abbreviation World := (@World CPVRClient CAddonMgr).
Abbreviation FanOut := (@FanOut CPVRClient CAddonMgr S).

(** The closure's state after the calls of [ForCreatedClients]. *)
Lemma ForCreatedClients_loop_closure (function : PVRClientFunction S)
    (targets : list (Z * Ptr)) (st : FanOut) :
  closure (foldl (fun st clientEntry => invoke function clientEntry.1 clientEntry.2 st)
                 st targets) =
  foldl (fun s (clientEntry : Z * Ptr) => (function clientEntry.2 s).2) (closure st) targets.
Proof.
  revert st. induction targets as [|[id client] targets IH]; intros st; simpl; [reflexivity |].
  rewrite IH. destruct (invoke_spec function id client st) as (_ & _ & _ & ->). reflexivity.
Qed.

(** The warnings of [ForCreatedClients] for ids that are not usable. *)
Lemma warn_not_callable_levels (strFunctionName : string) (w0 : World) (failed : list Z)
    (w : World) :
  heap w = heap w0 -> m_clientMap w = m_clientMap w0 ->
  (∀ id, id ∈ failed -> ¬ ∃ p, usable w0 id p) ->
  ∃ logs : list Event,
    trace (foldl (warn_not_callable strFunctionName) w failed) = trace w ++ logs ∧
    Forall is_warning logs ∧ calls_of logs = [].
Proof.
  revert w. induction failed as [|id failed IH]; intros w Hh Hm Hnot; simpl.
  - exists []. rewrite app_nil_r. auto.
  - assert (Hstep : ∃ l1, trace (warn_not_callable strFunctionName w id) = trace w ++ l1 ∧
                          Forall is_warning l1 ∧ calls_of l1 = [] ∧
                          heap (warn_not_callable strFunctionName w id) = heap w0 ∧
                          m_clientMap (warn_not_callable strFunctionName w id) =
                            m_clientMap w0).
    { unfold warn_not_callable.
      assert (Hg : GetClient w id = GetClient w0 id) by (unfold GetClient; by rewrite Hm).
      destruct (GetClient w id) as [c|] eqn:Hgc.
      - exists [client_warning strFunctionName (heap w c)].
        split; [reflexivity |]. split; [| split; [apply client_warning_no_call | auto]].
        apply Forall_singleton. unfold client_warning, is_warning. rewrite Hh.
        destruct (IgnoreClient (heap w0 c)) eqn:Hi; [eauto |].
        destruct (ReadyToUse (heap w0 c)) eqn:Hr; simpl; [| eauto].
        exfalso. apply (Hnot id ltac:(left)). exists c. unfold usable. rewrite <- Hg. auto.
      - exists []. rewrite app_nil_r. auto. }
    destruct Hstep as (l1 & Htr1 & Hw1 & Hc1 & Hh1 & Hm1).
    destruct (IH (warn_not_callable strFunctionName w id) Hh1 Hm1) as (logs & Htr & Hw & Hc).
    { intros id' Hin. apply Hnot. by right. }
    exists (l1 ++ logs). rewrite Htr, Htr1, <- app_assoc, calls_of_app, Hc1, Hc.
    split; [reflexivity | split; [by apply Forall_app | reflexivity]].
Qed.

(** A pass of [ForCreatedClients]: warnings, then the calls on the entries
    of [clientsReady], which thread the closure's state. *)
Lemma ForCreatedClients_pass (strFunctionName : string)
    (function : PVRClientFunction S) (s : S) (w : World) :
  let r := ForCreatedClients strFunctionName function s w in
  ∃ (logs : list Event) (calls : list (Z * Ptr * PVR_ERROR)),
    events_since w (world r) =
      logs ++ ((fun c : Z * Ptr * PVR_ERROR => Invoke_function c.1.1 c.1.2 c.2) <$> calls) ∧
    Forall is_warning logs ∧
    calls.*1 = entries (GetCallableClients w).1.1 ∧
    closure r =
      foldl (fun s (clientEntry : Z * Ptr) => (function clientEntry.2 s).2) s
            (entries (GetCallableClients w).1.1).
Proof.
  destruct (GetCallableClients_ready_not_ready w) as (_ & Hnot).
  unfold ForCreatedClients.
  destruct (GetCallableClients w) as [[clients failed] err] eqn:Hg. simpl in Hnot.
  cbv zeta.
  destruct (warn_not_callable_levels strFunctionName w failed w eq_refl eq_refl)
    as (logs & Htr & Hw & Hc).
  { intros id Hin. by apply Hnot in Hin as [_ ?]. }
  match goal with |- context [foldl ?f ?st0 (entries clients)] =>
    destruct (ForCreatedClients_loop function (entries clients) st0)
      as (calls & Htr' & Htg & _);
    pose proof (ForCreatedClients_loop_closure function (entries clients) st0) as Hcl
  end.
  cbn [world closure] in Htr', Hcl. rewrite Htr, <- app_assoc in Htr'.
  exists logs, calls. rewrite (events_since_app _ _ _ Htr').
  simpl. auto.
Qed.

(** X11.  A pass of [ForCreatedClients] first writes warnings, none at
    error level, then calls the operation: on [p] under [id] exactly when
    [id] is derived from a known instance of an enabled add-on, the client
    map holds [p] under [id], and [p] is ready to use and not ignored.  A
    ready client of the map whose id is not of that origin is not called,
    and no id is called twice. *)
Theorem ForCreatedClients_calls_callable (strFunctionName : string)
    (function : PVRClientFunction S) (s : S) (w : World) :
  let r := ForCreatedClients strFunctionName function s w in
  ∃ (logs : list Event) (calls : list (Z * Ptr * PVR_ERROR)),
    events_since w (world r) =
      logs ++ ((fun c : Z * Ptr * PVR_ERROR => Invoke_function c.1.1 c.1.2 c.2) <$> calls) ∧
    Forall is_warning logs ∧
    NoDup calls.*1.*1 ∧
    (∀ id p, (id, p) ∈ calls.*1 ↔ callable w id p) ∧
    (∀ id p, m_clientMap w !! id = Some p -> id ∉ enabled_instance_ids w ->
             id ∉ calls.*1.*1).
Proof.
  destruct (ForCreatedClients_pass strFunctionName function s w)
    as (logs & calls & Hev & Hw & Htg & _).
  destruct (GetCallableClients_ready_not_ready w) as (Hready & _).
  exists logs, calls. rewrite Htg.
  split; [exact Hev | split; [exact Hw | split; [apply NoDup_fst_entries | split]]].
  - intros id p. rewrite elem_of_entries. apply Hready.
  - intros id p _ Hnot Hin. apply list_elem_of_fmap in Hin as ([id' p'] & -> & Hin).
    apply elem_of_entries, Hready in Hin as [Hin _]. by apply Hnot.
Qed.

(** X12.  [GetTimers] calls [client->GetTimers(timers)] and records what
    it returned: on the callable clients when the request is empty, and
    else on every requested client whose id is not on the failed list
    returned.  It returns true exactly when none of these calls returned an
    error other than not implemented: clients the pass did not call, which
    are on the failed list from the start, do not make it false. *)
Theorem GetTimers_true (clients : list Ptr) (client_GetTimers : PVRClientFunction S)
    (timers : S) (w : World) :
  let r := GetTimers clients client_GetTimers timers w in
  let calls := calls_of (events_since w (world r.2)) in
  let id (client : Ptr) := GetID (heap w client) in
  calls = returns client_GetTimers timers calls.*1 ∧
  (clients = [] -> calls.*1 = entries (GetCallableClients w).1.1) ∧
  (∀ client, client ∈ clients ->
     id client ∈ failedClients r.2 ∨ ∃ result, (id client, client, result) ∈ calls) ∧
  (r.1 = true ↔
   Forall (fun c : Z * Ptr * PVR_ERROR =>
             c.2 = PVR_ERROR_NO_ERROR ∨ c.2 = PVR_ERROR_NOT_IMPLEMENTED) calls) ∧
  failedClients r.2 = initial_failed w clients ++ failures calls.
Proof.
  unfold GetTimers. cbv zeta. cbn [fst snd].
  set (r := ForClients "GetTimers" clients client_GetTimers timers w).
  set (calls := calls_of (events_since w (world r))).
  assert (Hrun : calls = returns client_GetTimers timers calls.*1 ∧
                 (clients = [] -> calls.*1 = entries (GetCallableClients w).1.1) ∧
                 (∀ client, client ∈ clients ->
                    GetID (heap w client) ∈ failedClients r ∨
                    ∃ result, (GetID (heap w client), client, result) ∈ calls) ∧
                 lastError r = last_failure calls ∧
                 failedClients r = initial_failed w clients ++ failures calls).
  { subst calls r. destruct clients as [|c0 clients].
    - destruct (ForCreatedClients_run "GetTimers" client_GetTimers timers w)
        as (Htargets & He & Hf).
      pose proof (ForCreatedClients_returns "GetTimers" client_GetTimers timers w) as Hret.
      change (ForClients "GetTimers" [] client_GetTimers timers w)
        with (ForCreatedClients "GetTimers" client_GetTimers timers w).
      split; [by rewrite Htargets | split; [auto | split; [| auto]]].
      intros client Hin. by apply elem_of_nil in Hin.
    - destruct (ForClients_run "GetTimers" (c0 :: clients) client_GetTimers timers w
                  ltac:(done)) as (He & Hf & Hall).
      destruct (ForClients_turns "GetTimers" (c0 :: clients) client_GetTimers timers w
                  ltac:(done)) as (_ & Hret & _).
      split; [exact Hret | split; [done | split; [| auto]]].
      intros client Hin. apply list_elem_of_lookup in Hin as [i Hi].
      destruct (Forall2_lookup_l _ _ _ _ _ Hall Hi) as (e & He' & Hcase).
      apply list_elem_of_lookup_2 in He'.
      destruct Hcase as [[_ Hfailed] | (res & -> & _)]; [by left | right].
      exists res. by apply elem_of_calls_of. }
  destruct Hrun as (Hret & Hempty & Hlive & He & Hf).
  split; [exact Hret | split; [exact Hempty | split; [exact Hlive | split; [| exact Hf]]]].
  rewrite bool_decide_eq_true, He, last_failure_no_error.
  apply Forall_proper; [| reflexivity]. intros [[k p] e]. simpl. apply is_failure_false.
Qed.

End FanOutMoreProperties.

(** ** Properties of the client API calls *)

Lemma foldl_collect {A B : Type} (f : A -> bool) (g : A -> B) (l : list A) (acc : list B) :
  foldl (fun acc x => if f x then acc ++ [g x] else acc) acc l =
  acc ++ (g <$> filter (fun x => f x = true) l).
Proof.
  revert acc. induction l as [|x l IH]; intros acc; simpl; [by rewrite app_nil_r |].
  rewrite IH, filter_cons. destruct (f x).
  - rewrite decide_True by reflexivity. by rewrite fmap_cons, <- app_assoc.
  - by rewrite decide_False.
Qed.

Lemma foldl_any {A : Type} (f : A -> bool) (l : list A) (b : bool) :
  foldl (fun b x => if f x then true else b) b l = b || existsb f l.
Proof.
  revert b. induction l as [|x l IH]; intros b; simpl; [by rewrite orb_false_r |].
  rewrite IH. by destruct (f x), b.
Qed.

Lemma filter_snd {A B : Type} (f : B -> bool) (l : list (A * B)) :
  snd <$> filter (fun x : A * B => f x.2 = true) l = filter (fun b => f b = true) (snd <$> l).
Proof.
  induction l as [|[a b] l IH]; [reflexivity |].
  rewrite fmap_cons, !filter_cons. cbn [snd].
  destruct (f b).
  - rewrite !decide_True by reflexivity. by rewrite fmap_cons, IH.
  - rewrite !decide_False by discriminate. exact IH.
Qed.

Section ApiProperties.
Context {P : Platform}.
Context {CPVRClient : Type} {client_class : CPVRClientClass CPVRClient}.
Context {capabilities_class : CPVRClientCapabilitiesClass CPVRClient}.
Context {CPVRTimerType : Type}
        {timer_types_class : CPVRClientTimerTypesClass CPVRClient CPVRTimerType}.
Context {CAddonMgr : Type} {addon_mgr_class : CAddonMgrClass CAddonMgr}.

Abbreviation World := (@World CPVRClient CAddonMgr).

(** A flag raised by the calls of [ForCreatedClients] is raised for a
    callable client. *)
Lemma ForCreatedClients_any (strFunctionName : string) (supports : CPVRClient -> bool)
    (w : World) :
  closure (ForCreatedClients strFunctionName
             (fun client (bHaveSupportingClient : bool) =>
                (PVR_ERROR_NO_ERROR,
                 if supports (heap w client) then true else bHaveSupportingClient))
             false w) = true ↔
  ∃ id p, callable w id p ∧ supports (heap w p) = true.
Proof.
  destruct (ForCreatedClients_pass strFunctionName
              (fun client (bHaveSupportingClient : bool) =>
                 (PVR_ERROR_NO_ERROR,
                  if supports (heap w client) then true else bHaveSupportingClient))
              false w) as (_ & _ & _ & _ & _ & ->).
  destruct (GetCallableClients_ready_not_ready w) as (Hready & _).
  cbn [snd].
  rewrite (foldl_any (fun clientEntry : Z * Ptr => supports (heap w clientEntry.2))).
  simpl. rewrite existsb_exists. split.
  - intros ([id p] & Hin & Hs). apply list_elem_of_In, elem_of_entries, Hready in Hin. eauto.
  - intros (id & p & Hc & Hs). exists (id, p).
    split; [by apply list_elem_of_In, elem_of_entries, Hready | exact Hs].
Qed.

(** The clients collected by the calls of [ForCreatedClients]. *)
Lemma ForCreatedClients_collect (strFunctionName : string) (supports : CPVRClient -> bool)
    (w : World) :
  closure (ForCreatedClients strFunctionName
             (fun client (possibleClients : list Ptr) =>
                (PVR_ERROR_NO_ERROR,
                 if supports (heap w client)
                 then possibleClients ++ [client] else possibleClients))
             [] w) =
  filter (fun p => supports (heap w p) = true) ((entries (GetCallableClients w).1.1).*2).
Proof.
  destruct (ForCreatedClients_pass strFunctionName
              (fun client (possibleClients : list Ptr) =>
                 (PVR_ERROR_NO_ERROR,
                  if supports (heap w client)
                  then possibleClients ++ [client] else possibleClients))
              [] w) as (_ & _ & _ & _ & _ & ->).
  cbn [snd].
  rewrite (foldl_collect (fun clientEntry : Z * Ptr => supports (heap w clientEntry.2)) snd).
  rewrite app_nil_l. apply (filter_snd (fun p => supports (heap w p))).
Qed.

Lemma elem_of_callable_ptrs (w : World) (p : Ptr) :
  p ∈ (entries (GetCallableClients w).1.1).*2 ↔ ∃ id, callable w id p.
Proof.
  destruct (GetCallableClients_ready_not_ready w) as (Hready & _).
  rewrite list_elem_of_fmap. split.
  - intros ([id p'] & -> & Hin). exists id. by apply Hready, elem_of_entries.
  - intros (id & Hc). exists (id, p). split; [reflexivity | by apply elem_of_entries, Hready].
Qed.

(** X13.  Each of [AnyClientSupportingEPG], [AnyClientSupportingRecordings],
    [AnyClientSupportingRecordingsDelete] and
    [AnyClientSupportingRecordingsSize] returns true exactly when a
    callable client has the capability: a client that has it but is
    ignored, not ready, not in the map under its derived id, or of an
    add-on that is not enabled, does not count. *)
Theorem AnyClientSupporting_callable (w : World) :
  let any (supports : CPVRClient -> bool) :=
    ∃ id p, callable w id p ∧ supports (heap w p) = true in
  ((AnyClientSupportingEPG w).1 = true ↔ any SupportsEPG) ∧
  ((AnyClientSupportingRecordings w).1 = true ↔ any SupportsRecordings) ∧
  ((AnyClientSupportingRecordingsDelete w).1 = true ↔ any SupportsRecordingsDelete) ∧
  ((AnyClientSupportingRecordingsSize w).1 = true ↔ any SupportsRecordingsSize).
Proof.
  intros any. subst any. cbv beta.
  split; [apply ForCreatedClients_any | split; [apply ForCreatedClients_any | split]];
    [apply ForCreatedClients_any |].
  unfold AnyClientSupportingRecordingsSize. cbv zeta. cbn [fst].
  rewrite ForCreatedClients_collect, negb_true_iff, bool_decide_eq_false.
  set (l := filter _ _). split.
  - intros Hlen. destruct l as [|p l'] eqn:Hl; [done |].
    assert (Hp : p ∈ l) by (rewrite Hl; left). subst l.
    apply list_elem_of_filter in Hp as [Hs (id & Hc)%elem_of_callable_ptrs]. eauto.
  - intros (id & p & Hc & Hs).
    assert (Hp : p ∈ l).
    { apply list_elem_of_filter. split; [exact Hs | apply elem_of_callable_ptrs; eauto]. }
    destruct l; [by apply elem_of_nil in Hp | discriminate].
Qed.

(** X14.  [GetClientsSupportingChannelScan] returns the callable clients
    that support channel scan, and [GetClientsSupportingChannelSettings]
    those that support channel settings and, for radio, radio, else TV; both
    in the order of their client ids, and nothing else. *)
Theorem GetClientsSupporting_callable (bRadio : bool) (w : World) :
  let settings (c : CPVRClient) :=
    SupportsChannelSettings c &&
    ((bRadio && SupportsRadio c) || (negb bRadio && SupportsTV c)) in
  (GetClientsSupportingChannelScan w).1 =
    filter (fun p => SupportsChannelScan (heap w p) = true)
           ((entries (GetCallableClients w).1.1).*2) ∧
  (GetClientsSupportingChannelSettings bRadio w).1 =
    filter (fun p => settings (heap w p) = true) ((entries (GetCallableClients w).1.1).*2) ∧
  (∀ p, p ∈ (GetClientsSupportingChannelScan w).1 ↔
        (∃ id, callable w id p) ∧ SupportsChannelScan (heap w p) = true) ∧
  (∀ p, p ∈ (GetClientsSupportingChannelSettings bRadio w).1 ↔
        (∃ id, callable w id p) ∧ settings (heap w p) = true).
Proof.
  intros settings.
  assert (Hscan : (GetClientsSupportingChannelScan w).1 =
                  filter (fun p => SupportsChannelScan (heap w p) = true)
                         ((entries (GetCallableClients w).1.1).*2)).
  { unfold GetClientsSupportingChannelScan. cbv zeta. cbn [fst].
    apply ForCreatedClients_collect. }
  assert (Hset : (GetClientsSupportingChannelSettings bRadio w).1 =
                 filter (fun p => settings (heap w p) = true)
                        ((entries (GetCallableClients w).1.1).*2)).
  { unfold GetClientsSupportingChannelSettings. cbv zeta. cbn [fst].
    apply (ForCreatedClients_collect "GetClientsSupportingChannelSettings" settings). }
  split; [exact Hscan | split; [exact Hset | split]]; intros p.
  - rewrite Hscan, list_elem_of_filter, elem_of_callable_ptrs. tauto.
  - rewrite Hset, list_elem_of_filter, elem_of_callable_ptrs. tauto.
Qed.

(** The calls of [ForCreatedClients] for an operation whose result does not
    depend on the closure's state. *)
Lemma ForCreatedClients_loop_results {S : Type} (function : PVRClientFunction S)
    (g : Ptr -> PVR_ERROR) (targets : list (Z * Ptr)) (st : @FanOut CPVRClient CAddonMgr S) :
  (∀ p s, (function p s).1 = g p) ->
  trace (world (foldl (fun st clientEntry => invoke function clientEntry.1 clientEntry.2 st)
                      st targets)) =
  trace (world st) ++
  ((fun c : Z * Ptr * PVR_ERROR => Invoke_function c.1.1 c.1.2 c.2) <$>
     ((fun clientEntry : Z * Ptr => (clientEntry, g clientEntry.2)) <$> targets)).
Proof.
  intros Hg. revert st. induction targets as [|[id client] targets IH]; intros st; simpl.
  - by rewrite app_nil_r.
  - destruct (invoke_spec function id client st) as (Hw & _).
    rewrite IH, Hw, Hg. simpl. by rewrite <- app_assoc.
Qed.

Lemma ForCreatedClients_results {S : Type} (strFunctionName : string)
    (function : PVRClientFunction S) (g : Ptr -> PVR_ERROR) (s : S) (w : World) :
  (∀ p s, (function p s).1 = g p) ->
  calls_of (events_since w (world (ForCreatedClients strFunctionName function s w))) =
  (fun clientEntry : Z * Ptr => (clientEntry, g clientEntry.2)) <$>
    entries (GetCallableClients w).1.1.
Proof.
  intros Hg. unfold ForCreatedClients.
  destruct (GetCallableClients w) as [[clients failed] err]. simpl.
  destruct (warn_not_callable_loop strFunctionName failed w) as (logs & Htr & Hc & _ & _).
  match goal with |- context [foldl ?f ?st0 (entries clients)] =>
    pose proof (ForCreatedClients_loop_results function g (entries clients) st0 Hg) as Htr'
  end.
  cbn [world] in Htr'. rewrite Htr, <- app_assoc in Htr'.
  by rewrite (events_since_app _ _ _ Htr'), calls_of_app, Hc, calls_of_invocations.
Qed.

(** X15.  [GetTimerTypes] appends to [results] the timer types of the
    callable clients, in the order of their client ids, leaving out every
    client whose call did not return [PVR_ERROR_NO_ERROR], whatever that call
    left in its vector; what [results] held before stays in front.  The
    error returned is the last failure among the calls. *)
Theorem GetTimerTypes_results (results : list CPVRTimerType) (w : World) :
  let r := GetTimerTypes results w in
  let ret (p : Ptr) := (CPVRClient_GetTimerTypes (heap w p)).2 in
  closure r =
    results ++
    (p ← (entries (GetCallableClients w).1.1).*2;
     if bool_decide (ret p = PVR_ERROR_NO_ERROR)
     then (CPVRClient_GetTimerTypes (heap w p)).1 else []) ∧
  calls_of (events_since w (world r)) =
    (fun clientEntry : Z * Ptr => (clientEntry, ret clientEntry.2)) <$>
      entries (GetCallableClients w).1.1 ∧
  lastError r = last_failure (calls_of (events_since w (world r))).
Proof.
  intros r ret. subst r. unfold GetTimerTypes.
  set (function := fun (client : Ptr) (results : list CPVRTimerType) =>
         let '(types, ret) := CPVRClient_GetTimerTypes (heap w client) in
         (ret, if bool_decide (ret = PVR_ERROR_NO_ERROR) then results ++ types else results)).
  destruct (ForCreatedClients_run "GetTimerTypes" function results w) as (_ & He & _).
  destruct (ForCreatedClients_pass "GetTimerTypes" function results w)
    as (_ & _ & _ & _ & _ & Hclosure).
  split; [| split; [| exact He]].
  - rewrite Hclosure. clear He Hclosure. generalize results.
    induction (entries (GetCallableClients w).1.1) as [|[id p] l IH]; intros acc; simpl.
    + by rewrite app_nil_r.
    + rewrite IH. subst function ret. cbn beta.
      destruct (CPVRClient_GetTimerTypes (heap w p)) as [types e]. simpl.
      destruct (bool_decide (e = PVR_ERROR_NO_ERROR)); simpl;
        [by rewrite <- app_assoc | reflexivity].
  - apply ForCreatedClients_results. intros p s. subst function ret. simpl.
    by destruct (CPVRClient_GetTimerTypes (heap w p)).
Qed.

End ApiProperties.

(** ** Further properties of the reconciliation *)

Lemma foldM_invariant_elem {A B : Type} (I : A -> Prop) (f : A -> B -> option A)
    (l : list B) :
  (∀ a b a', b ∈ l -> I a -> f a b = Some a' -> I a') ->
  ∀ a a', I a -> foldM f a l = Some a' -> I a'.
Proof.
  induction l as [|b l IH]; intros Hstep a a' Ha; simpl.
  - by intros [= <-].
  - destruct (f a b) as [a1|] eqn:Hf; simpl; [| discriminate].
    apply IH; [| eapply Hstep; [left | exact Ha | exact Hf]].
    intros a0 b0 a0' Hin. apply Hstep. by right.
Qed.

Section ReconciliationMoreProperties.
Context {P : Platform}.
Context {CPVRClient : Type} {client_class : CPVRClientClass CPVRClient}.
Context {CAddonMgr : Type} {addon_mgr_class : CAddonMgrClass CAddonMgr}.

Abbreviation World := (@World CPVRClient CAddonMgr).

Lemma continues_inside_refl (w : World) : continues_inside w w.
Proof.
  exists []. rewrite app_nil_r. repeat split; intros Hin; by apply elem_of_nil in Hin.
Qed.

Lemma continues_inside_trans (w1 w2 w3 : World) :
  continues_inside w1 w2 -> continues_inside w2 w3 -> continues_inside w1 w3.
Proof.
  intros (l1 & H1 & Hs1 & Ht1) (l2 & H2 & Hs2 & Ht2). exists (l1 ++ l2).
  rewrite H2, H1, <- app_assoc, !elem_of_app. tauto.
Qed.

Lemma continues_inside_emit (e : Event) (w : World) :
  e ≠ PVRManager_Stop -> e ≠ PVRManager_Start -> continues_inside w (emit e w).
Proof.
  intros Hs Ht. exists [e]. rewrite !list_elem_of_singleton. split; [reflexivity |].
  split; congruence.
Qed.

Lemma continues_inside_same_trace (w w' : World) :
  trace w' = trace w -> continues_inside w w'.
Proof.
  intros Htr. exists []. rewrite Htr, app_nil_r.
  repeat split; intros Hin; by apply elem_of_nil in Hin.
Qed.

(** The classification writes nothing to the trace, and lists for creation
    only instances it was given as enabled. *)
Lemma classify_instance_creates (Q : Z -> Prop) (addon : AddonInfo)
    (acc acc' : World * Actions) (instanceInfo : N * bool) :
  (instanceInfo.2 = true ->
   Q (ClientIdFromAddonIdAndInstanceId (AddonInfo_ID addon) instanceInfo.1)) ->
  classify_instance addon acc instanceInfo = Some acc' ->
  trace acc'.1 = trace acc.1 ∧ (creates_satisfy Q acc.2 -> creates_satisfy Q acc'.2).
Proof.
  unfold classify_instance, creates_satisfy, make_shared. destruct acc as [w a].
  destruct instanceInfo as [instanceId instanceEnabled]. cbn [fst snd].
  intros HQ. destruct instanceEnabled; cbn [andb].
  - specialize (HQ eq_refl).
    repeat case_match; simpl; intros Hc; simplify_option_eq;
      (split; [done |]); repeat case_match; simpl; auto;
      intros Ha; apply Forall_app; (split; [exact Ha |]);
      apply Forall_singleton; exact HQ.
  - repeat case_match; simpl; intros Hc; simplify_option_eq; (split; [done |]); auto.
Qed.

Lemma classify_creates (changedAddonId : string) (changedInstanceId : N)
    (w w' : World) (a : Actions) :
  classify changedAddonId changedInstanceId
    (map (fun addon => (addon, negb (IsAddonDisabled (AddonInfo_ID addon) (addonMgr w))))
         (GetAddonInfos false (addonMgr w))) w = Some (w', a) ->
  trace w' = trace w ∧ creates_satisfy (known_enabled_instance w) a.
Proof.
  unfold classify. intros Hc.
  apply (foldM_invariant_elem
           (fun acc : World * Actions =>
              trace acc.1 = trace w ∧ creates_satisfy (known_enabled_instance w) acc.2)) in Hc;
    [exact Hc | | split; [reflexivity | constructor]].
  intros acc [addon bEnabled] acc' Hin Hacc Hb. cbn [fst snd] in Hb.
  apply list_elem_of_In, in_map_iff in Hin as (addon' & [= -> <-] & Hin%list_elem_of_In).
  apply (foldM_invariant_elem
           (fun acc : World * Actions =>
              trace acc.1 = trace w ∧ creates_satisfy (known_enabled_instance w) acc.2)) in Hb;
    [exact Hb | | exact Hacc].
  intros acc0 info acc0' Hinfo [Htr Hd] Hstep.
  apply (classify_instance_creates (known_enabled_instance w)) in Hstep as [Htr' Hd'].
  { split; [congruence | auto]. }
  intros Henabled. exists addon, info.1.
  unfold instanceIdsWithStatus in Hinfo. apply elem_of_app in Hinfo as [Hinfo | Hinfo].
  - apply list_elem_of_In, in_map_iff in Hinfo as (id & <- & Hid%list_elem_of_In).
    simpl in Henabled. apply negb_true_iff in Henabled. auto.
  - destruct (_ && _) in Hinfo; [| by apply elem_of_nil in Hinfo].
    apply list_elem_of_singleton in Hinfo as ->. discriminate.
Qed.

Lemma StopClient_continues_inside (addonId : string) (instanceId : N) (bRestart : bool)
    (w : World) :
  continues_inside w (StopClient addonId instanceId bRestart w).2.
Proof.
  unfold StopClient.
  apply (continues_inside_trans _ (if IsPlaying w then emit SendMsg_TMSG_MEDIA_STOP w else w)).
  - destruct (IsPlaying w); [by apply continues_inside_emit | apply continues_inside_refl].
  - apply continues_inside_same_trace.
    by destruct (GetClient _ _); [destruct bRestart |].
Qed.

Lemma create_step_continues_inside (total : N) (acc acc' : N * World)
    (addon : option Ptr * Z) :
  create_step total acc addon = Some acc' -> continues_inside acc.2 acc'.2.
Proof.
  unfold create_step. destruct acc as [i w]. destruct addon as [[client|] id]; simpl;
    [| discriminate].
  destruct (Create id _) as [status obj]. intros [= <-]. cbn [snd].
  unfold continues_inside.
  destruct (bool_decide (status ≠ _)); [destruct (bool_decide (status = _)) |];
    (eexists; split; [simpl; rewrite <- ?app_assoc; reflexivity |]);
    split; intros Hin; repeat (apply elem_of_cons in Hin as [Hin | Hin]; [discriminate |]);
    by apply elem_of_nil in Hin.
Qed.

(** The trace of the actions: the PVR manager is stopped first and started
    last, and neither in between. *)
Lemma apply_actions_trace (a : Actions) (w w' : World) :
  apply_actions a w = Some w' ->
  ∃ mid : list Event,
    trace w' =
      trace w ++
      [PVRManager_Stop; CPVRGUIProgressHandler_new (g_localizeStrings_Get 19239)] ++
      mid ++ [PVRManager_Start] ∧
    (PVRManager_Stop ∉ mid) ∧ (PVRManager_Start ∉ mid) ∧
    CPVRGUIProgressHandler_reset ∈ mid.
Proof.
  unfold apply_actions.
  set (w0 := emit (CPVRGUIProgressHandler_new _) (emit PVRManager_Stop w)).
  destruct (foldM _ _ (addonsToCreate a)) as [[i w2]|] eqn:Hcreate; simpl; [| discriminate].
  apply (foldM_invariant (fun acc : N * World => continues_inside w0 acc.2)) in Hcreate;
    [| | apply continues_inside_refl].
  2: { intros acc b acc' Hacc Hb. apply create_step_continues_inside in Hb.
       eapply continues_inside_trans; eauto. }
  simpl in Hcreate.
  destruct (foldl _ (i, w2) (addonsToReCreate a)) as [i3 w3] eqn:Hrecreate.
  assert (Hw3 : continues_inside w0 w3).
  { change w3 with (i3, w3).2. rewrite <- Hrecreate.
    apply (foldl_invariant (fun acc : N * World => continues_inside w0 acc.2));
      [| exact Hcreate].
    intros [i0 w1] b Hacc. unfold recreate_step. cbn [snd].
    eapply continues_inside_trans; [exact Hacc |].
    eapply continues_inside_trans; [| apply StopClient_continues_inside].
    by apply (continues_inside_emit (UpdateProgress _ _ _)). }
  destruct Hw3 as (evs3 & Htr3 & Hs3 & Ht3).
  match goal with |- context [foldl destroy_step ?w4 ?l] =>
    assert (Hw4 : continues_inside w4 (foldl destroy_step w4 l))
  end.
  { apply (foldl_invariant (continues_inside _)); [| apply continues_inside_refl].
    intros w1 b Hacc. eapply continues_inside_trans; [exact Hacc |].
    apply StopClient_continues_inside. }
  destruct Hw4 as (evs4 & Htr4 & Hs4 & Ht4).
  match goal with |- context [foldM merge_step ?w4 ?l] =>
    destruct (foldM merge_step w4 l) as [w5|] eqn:Hmerge; simpl; [| discriminate];
    apply (foldM_invariant (fun w1 : World => trace w1 = trace w4)) in Hmerge;
      [| | reflexivity]
  end.
  2: { intros w1 [[client|] id] w1'; simpl; [| discriminate].
       intros Hw1 [= <-]. exact Hw1. }
  intros [= <-]. exists (evs3 ++ [CPVRGUIProgressHandler_reset] ++ evs4).
  simpl. rewrite Hmerge, Htr4. simpl. rewrite Htr3. subst w0. simpl.
  rewrite <- !app_assoc. simpl. split; [reflexivity |].
  rewrite !elem_of_app, !elem_of_cons.
  repeat split; [| | tauto]; intros [? | [? | ?]]; done.
Qed.

(** The keys of the client map after the actions. *)
Lemma apply_actions_keys (Q : Z -> Prop) (a : Actions) (w w' : World) :
  keys_satisfy Q w -> creates_satisfy Q a ->
  apply_actions a w = Some w' -> keys_satisfy Q w'.
Proof.
  intros Hw Hd. unfold apply_actions.
  destruct (foldM _ _ (addonsToCreate a)) as [[i w2]|] eqn:Hcreate; simpl; [| discriminate].
  apply (foldM_invariant (fun acc : N * World => keys_satisfy Q acc.2)) in Hcreate;
    [| | exact Hw].
  2: { intros acc b acc' Hacc Hb. apply create_step_map in Hb.
       unfold keys_satisfy in *. rewrite Hb. exact Hacc. }
  simpl in Hcreate.
  destruct (foldl _ (i, w2) (addonsToReCreate a)) as [i3 w3] eqn:Hrecreate.
  assert (Hw3 : keys_satisfy Q w3).
  { change w3 with (i3, w3).2. rewrite <- Hrecreate.
    apply (foldl_invariant (fun acc : N * World => keys_satisfy Q acc.2));
      [| exact Hcreate].
    intros [i0 w0] b Hacc. apply StopClient_keys. exact Hacc. }
  match goal with |- context [foldl destroy_step ?w0 ?l] =>
    assert (Hw4 : keys_satisfy Q (foldl destroy_step w0 l))
  end.
  { apply foldl_invariant; [| exact Hw3].
    intros w0 b Hacc. by apply StopClient_keys. }
  match goal with |- context [foldM merge_step ?w0 ?l] =>
    destruct (foldM merge_step w0 l) as [w5|] eqn:Hmerge; simpl; [| discriminate];
    assert (Hw5 : keys_satisfy Q w5)
  end.
  { revert Hmerge Hw4 Hd. unfold creates_satisfy.
    generalize (addonsToCreate a).
    match goal with |- ∀ l, foldM merge_step ?w0 l = _ -> _ => generalize w0 end.
    intros w0 l. revert w0. induction l as [|[c id] l IH]; intros w0; simpl.
    - by intros [= <-].
    - destruct c as [client|]; simpl; [| discriminate].
      intros Hrest Hw0 [Hid Hl]%Forall_cons. simpl in Hid.
      eapply IH; [exact Hrest | | exact Hl].
      intros k p. simpl. rewrite lookup_map_insert.
      destruct (decide (id = k)) as [<- | _]; [intros _; exact Hid |].
      apply Hw0. }
  intros [= <-]. exact Hw5.
Qed.

(** The stages of [UpdateAddons]: an early return, or a classification
    followed, when it lists an action, by the actions. *)
Lemma UpdateAddons_stages (changedAddonId : string) (changedInstanceId : N) (w w' : World) :
  UpdateAddons changedAddonId changedInstanceId w = Some w' ->
  w' = w ∨
  ∃ (w1 : World) (a : Actions),
    classify changedAddonId changedInstanceId
      (map (fun addon => (addon, negb (IsAddonDisabled (AddonInfo_ID addon) (addonMgr w))))
           (GetAddonInfos false (addonMgr w))) w = Some (w1, a) ∧
    apply_actions a w1 = Some w'.
Proof.
  unfold UpdateAddons.
  destruct (bool_decide _); [intros [= <-]; by left |].
  destruct (negb _); [intros [= <-]; by left |].
  destruct (classify _ _ _ w) as [[w1 a]|] eqn:Hc; simpl; [| discriminate].
  destruct (any_action a) eqn:Hany; [intros Hrun; right; eauto |].
  intros [= <-]. left.
  by apply classify_unchanged_or_action in Hc as [[= -> _] | Hany']; [| congruence].
Qed.

(** X16.  A run of [UpdateAddons] leaves the state exactly as it was, or
    stops the PVR manager first and starts it last: what it writes to the
    trace begins with the stop and the creation of the progress dialog and
    ends with the start, with the reset of the dialog and no other stop or
    start in between.  In particular the client map only changes while the
    PVR manager is stopped. *)
Theorem UpdateAddons_stops_and_starts_manager (changedAddonId : string)
    (changedInstanceId : N) (w w' : World) :
  UpdateAddons changedAddonId changedInstanceId w = Some w' ->
  w' = w ∨
  ∃ mid : list Event,
    events_since w w' =
      [PVRManager_Stop; CPVRGUIProgressHandler_new (g_localizeStrings_Get 19239)] ++
      mid ++ [PVRManager_Start] ∧
    (PVRManager_Stop ∉ mid) ∧ (PVRManager_Start ∉ mid) ∧
    CPVRGUIProgressHandler_reset ∈ mid.
Proof.
  intros [-> | (w1 & a & Hc & Hrun)]%UpdateAddons_stages; [by left | right].
  apply classify_creates in Hc as [Htr _].
  apply apply_actions_trace in Hrun as (mid & Hrun & Hmid).
  exists mid. split; [| exact Hmid].
  unfold events_since. rewrite Hrun, Htr. apply drop_app_length.
Qed.

(** X17.  Every key [UpdateAddons] adds to the client map is the id derived
    for a known instance of an add-on that the add-on manager lists and has
    not disabled: no client is added for a disabled add-on, nor for the
    removed instance the call was made for. *)
Theorem UpdateAddons_adds_enabled_instances (changedAddonId : string)
    (changedInstanceId : N) (w w' : World) :
  UpdateAddons changedAddonId changedInstanceId w = Some w' ->
  ∀ (k : Z) (p : Ptr),
    m_clientMap w' !! k = Some p -> m_clientMap w !! k = None ->
    known_enabled_instance w k.
Proof.
  intros Hrun k p Hk Hnew.
  apply UpdateAddons_stages in Hrun as [-> | (w1 & a & Hc & Hrun)]; [congruence |].
  pose proof (classify_map _ _ _ _ _ _ Hc) as [Hm _].
  apply classify_creates in Hc as [_ Hd].
  assert (Hkeys : keys_satisfy
                    (fun k => is_Some (m_clientMap w !! k) ∨ known_enabled_instance w k) w').
  { apply (apply_actions_keys _ a w1); [| | exact Hrun].
    - intros k0 p0 Hk0. left. rewrite <- Hm. eauto.
    - unfold creates_satisfy in *. eapply Forall_impl; [exact Hd |]. simpl. auto. }
  destruct (Hkeys k p Hk) as [[p0 Hp0] | Hen]; [congruence | exact Hen].
Qed.

End ReconciliationMoreProperties.

(** ** Further closed runs on the concrete platform *)

(** X3, witness: the client of pvr.hts is found under its client id. *)
Lemma GetClientId_GetClient_witness :
  (registered demo_w "pvr.hts" 1 ↔ GetClientId demo_w "pvr.hts" 1 ≠ -1) ∧
  (registered demo_w "pvr.hts" 1 ->
   ∃ p, GetClient (P := kodi_platform) demo_w (GetClientId demo_w "pvr.hts" 1) = Some p ∧
        ID (heap demo_w p) = "pvr.hts"%string ∧ InstanceId (heap demo_w p) = 1%N) ∧
  (¬ registered demo_w "pvr.hts" 1 ->
   GetClient (P := kodi_platform) demo_w (GetClientId demo_w "pvr.hts" 1) = None).
Proof.
  exact (GetClientId_GetClient (P := kodi_platform) demo_w "pvr.hts" 1 demo_w_ids_valid).
Defined.

Lemma demo_w_keys_positive (k : Z) (p : Ptr) : m_clientMap demo_w !! k = Some p -> 0 < k.
Proof.
  intros Hk.
  assert (Hall : map_Forall (fun (k : Z) (_ : Ptr) => 0 < k) (m_clientMap demo_w)).
  { apply (bool_decide_unpack _). vm_compute. exact I. }
  exact (Hall k p Hk).
Defined.

(** X4, witness: the second instance of pvr.iptvsimple has no client in
    the map. *)
Lemma IsKnownClient_registered_witness :
  IsKnownClient demo_w "pvr.iptvsimple" 2 = true ↔ registered demo_w "pvr.iptvsimple" 2.
Proof.
  exact (IsKnownClient_registered demo_w "pvr.iptvsimple" 2 demo_w_keys_positive).
Defined.

(** X5, witness. *)
Lemma IsCreatedClient_overloads_witness :
  IsCreatedClient demo_w "pvr.iptvsimple" 1 =
  IsCreatedClient_id (P := kodi_platform) demo_w (GetClientId demo_w "pvr.iptvsimple" 1).
Proof.
  exact (IsCreatedClient_overloads (P := kodi_platform) demo_w "pvr.iptvsimple" 1
           demo_w_ids_valid).
Defined.

(** X7, witness: the two ready clients, collected into an empty map. *)
Lemma GetCreatedClients_spec_witness :
  (GetCreatedClients ∅ demo_w).1 = CreatedClientAmount demo_w ∧
  ∀ k p, m_clientMap demo_w !! k = Some p -> ReadyToUse (heap demo_w p) = true ->
         is_Some ((GetCreatedClients ∅ demo_w).2 !! GetID (heap demo_w p)).
Proof.
  destruct (GetCreatedClients_spec ∅ demo_w) as (Hamount & _ & _ & Hready).
  - vm_compute. reflexivity.
  - split; [exact Hamount | exact Hready].
Defined.

(** X8, witness. *)
Lemma EnabledClientAmount_IsEnabledClient_witness :
  0 < EnabledClientAmount demo_w ↔
  ∃ clientId, IsEnabledClient (P := kodi_platform) demo_w clientId = true.
Proof.
  destruct (EnabledClientAmount_IsEnabledClient (P := kodi_platform) demo_w) as [_ Hpos].
  - vm_compute. reflexivity.
  - exact demo_w_ids_valid.
  - exact Hpos.
Defined.

(** [Stop] reaches both clients of the map and not the client at address 2. *)
Example Stop_demo :
  ReadyToUse (heap (Stop demo_w) 0%nat) = false ∧
  ReadyToUse (heap (Stop demo_w) 1%nat) = false ∧
  ReadyToUse (heap (Stop demo_w) 2%nat) = true.
Proof. vm_compute. auto. Qed.

(** Only pvr.hts supports recordings and channel scan; the timer type the
    failing client of pvr.iptvsimple wrote is left out, and its error is
    returned. *)
Example capabilities_demo :
  (AnyClientSupportingRecordings (P := kodi_platform) demo_w).1 = true ∧
  (GetClientsSupportingChannelScan (P := kodi_platform) demo_w).1 = [0%nat] ∧
  (GetClientsSupportingChannelSettings (P := kodi_platform) true demo_w).1 = [0%nat] ∧
  closure (GetTimerTypes (P := kodi_platform) [] demo_w) = ["Once"; "Series"]%string ∧
  lastError (GetTimerTypes (P := kodi_platform) [] demo_w) = PVR_ERROR_SERVER_ERROR.
Proof. vm_compute. auto 10. Qed.

(** X16, witness: the run that creates the client of pvr.hts. *)
Lemma UpdateAddons_stops_and_starts_manager_witness :
  ∃ w, UpdateAddons (P := kodi_platform) EmptyString 0 demo_w_fresh = Some w ∧
       (w = demo_w_fresh ∨
        ∃ mid : list Event,
          events_since demo_w_fresh w =
            [PVRManager_Stop;
             CPVRGUIProgressHandler_new (g_localizeStrings_Get (Platform := kodi_platform) 19239)]
            ++ mid ++ [PVRManager_Start] ∧
          (PVRManager_Stop ∉ mid) ∧ (PVRManager_Start ∉ mid) ∧
          CPVRGUIProgressHandler_reset ∈ mid).
Proof.
  destruct (UpdateAddons (P := kodi_platform) EmptyString 0 demo_w_fresh) as [w|] eqn:Hrun.
  - exists w. split; [reflexivity |].
    exact (UpdateAddons_stops_and_starts_manager (P := kodi_platform) EmptyString 0
             demo_w_fresh w Hrun).
  - exfalso. vm_compute in Hrun. discriminate.
Defined.

(** X17, witness: the key the same run adds. *)
Lemma UpdateAddons_adds_enabled_instances_witness :
  ∃ w, UpdateAddons (P := kodi_platform) EmptyString 0 demo_w_fresh = Some w ∧
       ∀ (k : Z) (p : Ptr),
         m_clientMap w !! k = Some p -> m_clientMap demo_w_fresh !! k = None ->
         known_enabled_instance (P := kodi_platform) demo_w_fresh k.
Proof.
  destruct (UpdateAddons (P := kodi_platform) EmptyString 0 demo_w_fresh) as [w|] eqn:Hrun.
  - exists w. split; [reflexivity |].
    exact (UpdateAddons_adds_enabled_instances (P := kodi_platform) EmptyString 0
             demo_w_fresh w Hrun).
  - exfalso. vm_compute in Hrun. discriminate.
Defined.
